(** * Sliding-window rate limiter (app/utils/rate-limit.server.ts)

    A shallow embedding of the [RateLimit] class of the advanced-techniques
    guide, and the properties of its [check] method.

    Modelling choices.
    - Timestamps ([Date.now()]) and the two numeric options are whole
      numbers of milliseconds / requests: [Z].  [Date.now()] is an input of
      [check], so a run of the limiter is a list of (request, time) pairs.
    - [Map<string, number[]>] is a [gmap string (list Z)].
    - A [Request] is reduced to its header table, keyed by lower-case
      header name; [Headers.get] answers [None] for JavaScript's [null],
      and a header may be present with an empty value.
    - JavaScript's [a || b] on strings picks [b] when [a] is [null],
      [undefined] or the empty string. *)

From Stdlib Require Import ZArith Lia List Sorted Ascii.
From stdpp Require Import base gmap strings list fin_maps pretty.

Open Scope Z_scope.

(** ** Data model *)

Record Request := mkRequest { headers : gmap string string }.

Definition Headers_get (request : Request) (name : string) : option string :=
  headers request !! name.

Record RateLimitOptions := mkOptions {
  windowMs : Z;
  maxRequests : Z;
  keyGenerator : option (Request -> string)
}.

Record RateLimit := mkRateLimit {
  options : RateLimitOptions;
  requests : gmap string (list Z)
}.

(** The outcome of [new RateLimit(options)].  The source has no failing
    path; the second constructor only exists so that a rejected
    configuration can be talked about. *)
Inductive Construction :=
| Constructed (limiter : RateLimit)
| InvalidConfiguration.

(** ** JavaScript truthiness of [string | null | undefined] *)

Definition truthy (s : string) : bool :=
  match s with
  | EmptyString => false
  | String _ _ => true
  end.

(** [a || b] where [a : string | null] and [b : string]. *)
Definition js_or (a : option string) (b : string) : string :=
  match a with
  | Some s => if truthy s then s else b
  | None => b
  end.

(** ** Operations *)

(** [constructor(private options: RateLimitOptions) {}] with the field
    initialiser [requests = new Map()]. *)
Definition new_RateLimit (opts : RateLimitOptions) : Construction :=
  Constructed {| options := opts; requests := ∅ |}.

Definition fresh (opts : RateLimitOptions) : RateLimit :=
  {| options := opts; requests := ∅ |}.

(** [request.headers.get("x-forwarded-for") || request.headers.get("x-real-ip") || "unknown"] *)
Definition getIP (request : Request) : string :=
  js_or (Headers_get request "x-forwarded-for")
        (js_or (Headers_get request "x-real-ip") "unknown").

(** [this.options.keyGenerator?.(request) || this.getIP(request)] *)
Definition clientKey (opts : RateLimitOptions) (request : Request) : string :=
  js_or (option_map (fun g => g request) (keyGenerator opts)) (getIP request).

(** [userRequests.filter((time) => time > windowStart)] *)
Definition validRequests (windowStart : Z) (userRequests : list Z) : list Z :=
  List.filter (fun time => time >? windowStart) userRequests.

(** [if (!this.requests.has(key)) this.requests.set(key, [])] *)
Definition ensureKey (key : string) (m : gmap string (list Z)) : gmap string (list Z) :=
  match m !! key with
  | Some _ => m
  | None => <[key := []]> m
  end.

(** [check(request)], with the clock reading [now] made explicit. *)
Definition check (limiter : RateLimit) (request : Request) (now : Z)
  : RateLimit * bool :=
  let opts := options limiter in
  let key := clientKey opts request in
  let windowStart := now - windowMs opts in
  let requests1 := ensureKey key (requests limiter) in
  let userRequests := default [] (requests1 !! key) in
  let valid := validRequests windowStart userRequests in
  if Z.of_nat (length valid) >=? maxRequests opts then
    ({| options := opts; requests := requests1 |}, false)
  else
    ({| options := opts; requests := <[key := valid ++ [now]]> requests1 |}, true).

(** A run: successive [check] calls on the same limiter. *)
Fixpoint run (limiter : RateLimit) (calls : list (Request * Z))
  : RateLimit * list bool :=
  match calls with
  | [] => (limiter, [])
  | (request, now) :: rest =>
      let '(limiter1, ok) := check limiter request now in
      let '(limiter2, oks) := run limiter1 rest in
      (limiter2, ok :: oks)
  end.

(** The timestamps of the calls of a run that were made for client [key]
    and answered [true], in arrival order. *)
Fixpoint admittedTimes (limiter : RateLimit) (calls : list (Request * Z))
  (key : string) : list Z :=
  match calls with
  | [] => []
  | (request, now) :: rest =>
      let '(limiter1, ok) := check limiter request now in
      (if ok && bool_decide (clientKey (options limiter) request = key)
       then [now] else [])
      ++ admittedTimes limiter1 rest key
  end.

(** The timestamps of all calls made for client [key]. *)
Definition keyTimes (opts : RateLimitOptions) (key : string)
  (calls : list (Request * Z)) : list Z :=
  map snd (List.filter
             (fun c => bool_decide (clientKey opts (fst c) = key)) calls).

(** The stored sequence of a client ([[]] when the key is not in the map). *)
Definition stored (limiter : RateLimit) (key : string) : list Z :=
  default [] (requests limiter !! key).

(** Number of timestamps in the trailing window [(e - w, e]]. *)
Definition inWindow (w e : Z) (times : list Z) : nat :=
  length (List.filter (fun t => (t >? e - w) && (t <=? e)) times).

(** A history of admissions, newest first, in which every admission
    together with the older admissions inside its own trailing window
    stays within the budget [m]. *)
Fixpoint withinBudget (w m : Z) (history : list Z) : Prop :=
  match history with
  | [] => True
  | a :: older =>
      Z.of_nat (length (validRequests (a - w) (a :: older))) <= m
      /\ withinBudget w m older
  end.

(** The stored sequence of [key] still holds every admission of [history]
    that can fall inside the window of a call made at [bound] or later. *)
Definition covers (w bound : Z) (limiter : RateLimit) (key : string)
  (history : list Z) : Prop :=
  forall x, bound <= x ->
    (length (validRequests (x - w) history)
     <= length (validRequests (x - w) (stored limiter key)))%nat.

(** Every stored sequence is empty or no longer than the budget. *)
Definition bounded (limiter : RateLimit) : Prop :=
  forall key,
    stored limiter key = []
    \/ Z.of_nat (length (stored limiter key)) <= maxRequests (options limiter).

(** [check] as the specification words it (4.1, steps 1 to 7): the
    sequence is filtered to the timestamps greater than [windowStart], the
    filtered sequence replaces the stored one whatever the outcome, and
    [now] is appended to it on admission only. *)
Definition check_spec (limiter : RateLimit) (request : Request) (now : Z)
  : RateLimit * bool :=
  let opts := options limiter in
  let key := clientKey opts request in
  let windowStart := now - windowMs opts in
  let sequence := default [] (requests limiter !! key) in
  let valid :=
    List.filter (fun timestamp => windowStart <? timestamp) sequence in
  if Z.of_nat (length valid) >=? maxRequests opts then
    ({| options := opts; requests := <[key := valid]> (requests limiter) |},
     false)
  else
    ({| options := opts;
        requests := <[key := valid ++ [now]]> (requests limiter) |}, true).

(** A request carrying the given forwarded-address header only. *)
Definition requestFrom (ip : string) : Request :=
  {| headers := {[ "x-forwarded-for" := ip ]} |}.

(** The limiter reached from a new one by a run of calls. *)
Definition reached (opts : RateLimitOptions) (calls : list (Request * Z))
  : RateLimit :=
  fst (run (fresh opts) calls).

(** The scenario of the specification: a window of one second, a budget
    of three, one client. *)
Definition scenarioOptions : RateLimitOptions :=
  {| windowMs := 1000; maxRequests := 3; keyGenerator := None |}.

Definition scenarioCalls : list (Request * Z) :=
  map (fun t => (requestFrom "k", t)) [0; 100; 200; 900; 1001].

(** A request whose forwarded-address header is present and empty. *)
Definition emptyForwarded : Request :=
  {| headers := {[ "x-forwarded-for" := ""; "x-real-ip" := "10.0.0.1" ]} |}.

(** Options with a key function that answers the empty string. *)
Definition blankKeyOptions : RateLimitOptions :=
  {| windowMs := 1000; maxRequests := 3;
     keyGenerator := Some (fun _ : Request => "") |}.

(** ** The login route (app/routes/login.tsx) *)

(** [new RateLimit({ windowMs: 15 * 60 * 1000, maxRequests: 5 })] *)
Definition loginRateLimit : RateLimit :=
  fresh {| windowMs := 15 * 60 * 1000; maxRequests := 5;
           keyGenerator := None |}.

(** What the route's [action] does with a request: it throws the response
    [data(message, { status })], or goes on to process the login. *)
Inductive ActionResult :=
| Thrown (message : string) (status : Z)
| ProcessLogin.

(** [if (!loginRateLimit.check(request)) throw data(..., { status: 429 })] *)
Definition login_action (limiter : RateLimit) (request : Request) (now : Z)
  : RateLimit * ActionResult :=
  let '(limiter1, ok) := check limiter request now in
  if negb ok then
    (limiter1,
     Thrown "Too many login attempts, please try again later" 429)
  else (limiter1, ProcessLogin).

(** Successive calls of the login action on the module-level limiter. *)
Fixpoint login_run (limiter : RateLimit) (calls : list (Request * Z))
  : RateLimit * list ActionResult :=
  match calls with
  | [] => (limiter, [])
  | (request, now) :: rest =>
      let '(limiter1, r) := login_action limiter request now in
      let '(limiter2, rs) := login_run limiter1 rest in
      (limiter2, r :: rs)
  end.

(** The action's outcome for each answer of [check]. *)
Definition loginOutcome (ok : bool) : ActionResult :=
  if ok then ProcessLogin
  else Thrown "Too many login attempts, please try again later" 429.

(** Two limiters that no [check] can tell apart: same options, and the
    same stored sequence under every key (an absent entry and an empty one
    count alike). *)
Definition sameStored (l1 l2 : RateLimit) : Prop :=
  options l1 = options l2 /\ forall key, stored l1 key = stored l2 key.

(** ** The client cache (app/utils/cache.ts) *)

Module ClientCache.

(** The object [{ data, expiry }] kept under a key. *)
Record Entry (A : Type) := mkEntry { data : A; expiry : Z }.
Arguments mkEntry {A}.
Arguments data {A}.
Arguments expiry {A}.

(** [getFromIndexedDB]: the body is a placeholder that returns [null]. *)
Definition getFromIndexedDB {A : Type} (key : string) : option A := None.

(** [get(key)], with the clock reading [now] and the outcome of
    ["indexedDB" in window] made explicit.  [None] is [null]. *)
Definition get {A : Type} (hasIndexedDB : bool)
  (cache : gmap string (Entry A)) (key : string) (now : Z)
  : gmap string (Entry A) * option A :=
  let fallback := if hasIndexedDB then getFromIndexedDB key else None in
  match cache !! key with
  | Some entry =>
      if now <? expiry entry then (cache, Some (data entry))
      else (delete key cache, fallback)
  | None => (cache, fallback)
  end.

(** [set(key, data, ttl = 5 * 60 * 1000)]; [setInIndexedDB] has an empty
    body, so the second branch changes nothing. *)
Definition set {A : Type} (hasIndexedDB : bool)
  (cache : gmap string (Entry A)) (key : string) (d : A) (ttl : option Z)
  (now : Z) : gmap string (Entry A) :=
  let expiry := now + default (5 * 60 * 1000) ttl in
  <[key := mkEntry d expiry]> cache.

(** [clientLoader({ params })] of app/routes/products.$id.tsx.  [truthyData]
    is JavaScript's truthiness of a cached value, [fetched] the product the
    API answers with, [tGet] and [tSet] the two clock readings.  The third
    component tells whether the API was called. *)
Definition clientLoader {A : Type} (truthyData : A -> bool)
  (hasIndexedDB : bool) (cache : gmap string (Entry A)) (id : string)
  (fetched : A) (tGet tSet : Z) : gmap string (Entry A) * A * bool :=
  let cacheKey := "product-" +:+ id in
  let '(cache1, cached) := get hasIndexedDB cache cacheKey tGet in
  let viaApi := (set hasIndexedDB cache1 cacheKey fetched None tSet,
                 fetched, true) in
  match cached with
  | Some product => if truthyData product then (cache1, product, false)
                    else viaApi
  | None => viaApi
  end.

End ClientCache.

(** ** The WebSocket listeners (app/utils/websocket.ts) *)

Module WebSocketManager.

(** Callbacks are compared by identity; a callback is named by a number.
    A JavaScript [Set] iterates in insertion order and holds no element
    twice: a list, with [add] and [delete] as below. *)
Definition Set_add (callback : nat) (s : list nat) : list nat :=
  if bool_decide (callback ∈ s) then s else s ++ [callback].

Definition Set_delete (callback : nat) (s : list nat) : list nat :=
  List.filter (fun c => negb (Nat.eqb c callback)) s.

(** [subscribe(type, callback)]: the update of [listeners]. *)
Definition subscribe (listeners : gmap string (list nat)) (type : string)
  (callback : nat) : gmap string (list nat) :=
  let listeners1 :=
    match listeners !! type with
    | Some _ => listeners
    | None => <[type := []]> listeners
    end in
  <[type := Set_add callback (default [] (listeners1 !! type))]> listeners1.

(** The function [subscribe] returns, when it is called. *)
Definition unsubscribe (listeners : gmap string (list nat)) (type : string)
  (callback : nat) : gmap string (list nat) :=
  match listeners !! type with
  | Some typeListeners => <[type := Set_delete callback typeListeners]> listeners
  | None => listeners
  end.

(** [onmessage] for a parsed message [{ type, data }]: the calls it makes,
    in order, as (callback, argument) pairs. *)
Definition onmessage {D : Type} (listeners : gmap string (list nat))
  (type : string) (data : D) : list (nat * D) :=
  match listeners !! type with
  | Some typeListeners => map (fun listener => (listener, data)) typeListeners
  | None => []
  end.

(** The callbacks subscribed to a type, in the order of their calls. *)
Definition listenersOf (listeners : gmap string (list nat)) (type : string)
  : list nat :=
  default [] (listeners !! type).

(** What a component does to the manager. *)
Inductive Op :=
| Subscribe (type : string) (callback : nat)
| Unsubscribe (type : string) (callback : nat).

Definition step (listeners : gmap string (list nat)) (op : Op)
  : gmap string (list nat) :=
  match op with
  | Subscribe type callback => subscribe listeners type callback
  | Unsubscribe type callback => unsubscribe listeners type callback
  end.

(** The listeners after a sequence of operations on a new manager. *)
Definition after (ops : list Op) : gmap string (list nat) :=
  fold_left step ops ∅.

End WebSocketManager.

(** ** Responses *)

(** A loader or helper returns a value or throws [data(body, { status })]. *)
Inductive Result (A : Type) :=
| Return (value : A)
| Throw (body : string) (status : Z).
Arguments Return {A}.
Arguments Throw {A}.

(** ** CSRF tokens (app/utils/csrf.server.ts) *)

Module Csrf.

(** [generateCSRFToken(request)]: the session read from the request's
    cookie, the token [crypto.randomUUID()] drew, and the result: the token
    and the session that [commitSession] puts into the cookie. *)
Definition generateCSRFToken (session : gmap string string) (uuid : string)
  : string * gmap string string :=
  (uuid, <["csrfToken" := uuid]> session).

(** [validateCSRFToken(request, token)]; the route passes
    [formData.get("_csrf")], which is [null] ([None]) for a missing field.
    [!sessionToken || sessionToken !== token] throws. *)
Definition validateCSRFToken (session : gmap string string)
  (token : option string) : Result unit :=
  match session !! "csrfToken" with
  | Some sessionToken =>
      if negb (truthy sessionToken)
         || negb (bool_decide (Some sessionToken = token))
      then Throw "Invalid CSRF token" 403
      else Return tt
  | None => Throw "Invalid CSRF token" 403
  end.

End Csrf.

(** ** Conditional requests (app/routes/api.products.$id.tsx) *)

Module ProductApi.

Record Product := mkProduct {
  id : string;
  updatedAt : Z;     (* [product.updatedAt.getTime()] *)
  details : string   (* every other column *)
}.

Record Response := mkResponse {
  body : option Product;           (* [None] is [data(null, ...)] *)
  status : Z;
  responseHeaders : list (string * string)
}.

(** The template [`"${product.updatedAt.getTime()}"`]: the decimal digits
    between two double-quote characters. *)
Definition etagOf (product : Product) : string :=
  String "034"%char (pretty (updatedAt product) +:+ String "034"%char "").

(** The second [loader]: [db] stands for the product table,
    [ifNoneMatch] for [request.headers.get("If-None-Match")]. *)
Definition loader (db : gmap string Product) (ifNoneMatch : option string)
  (paramsId : string) : Result Response :=
  match db !! paramsId with
  | None => Throw "Product not found" 404
  | Some product =>
      let etag := etagOf product in
      if bool_decide (ifNoneMatch = Some etag) then
        Return (mkResponse None 304 [])
      else
        Return (mkResponse (Some product) 200
                  [("Cache-Control", "public, max-age=3600"); ("ETag", etag)])
  end.

(** The [ETag] header of a response, as a client would send it back. *)
Definition etagHeader (r : Result Response) : option string :=
  match r with
  | Return response =>
      snd <$> List.find (fun h => String.eqb (fst h) "ETag")
                (responseHeaders response)
  | Throw _ _ => None
  end.

End ProductApi.

(** ** Sessions: authentication and onboarding *)

Module Sessions.

(** The [step1] object: the two [formData.get] results ([None] is [null]). *)
Record Step1 := mkStep1 { name : option string; email : option string }.

(** What the routes read from and write to a session: [userId], and
    [onboarding], an object whose only property is the optional [step1]
    ([Some None] is the empty object).  [commitSession] and [getSession]
    are taken to carry this data unchanged from a response to the next
    request. *)
Record Session := mkSession {
  userId : option string;
  onboarding : option (option Step1)
}.

Record User := mkUser { id : string; isAdmin : bool }.

(** The argument of [createUser]: the spread [...onboardingData.step1]
    (nothing when [step1] is missing) and [preferences]. *)
Record NewUser := mkNewUser {
  fromStep1 : option Step1;
  preferences : option string
}.

(** A route returns data, or answers [data(body, { status })], or
    redirects, with or without a [Set-Cookie] header. *)
Inductive Outcome (A : Type) :=
| Data (value : A)
| ErrorData (error : string) (status : Z)
| Redirect (url : string) (setCookie : option Session).
Arguments Data {A}.
Arguments ErrorData {A}.
Arguments Redirect {A}.

(** [requireAuth]: [if (!userId) throw redirect("/login", ...)]. *)
Definition requireAuth (session : Session) : Outcome string :=
  match userId session with
  | Some u => if truthy u then Data u
              else Redirect "/login" (Some session)
  | None => Redirect "/login" (Some session)
  end.

(** [getUser]: [if (!userId) return null], else the row of the user table. *)
Definition getUser (db : gmap string User) (session : Session) : option User :=
  match userId session with
  | Some u => if truthy u then db !! u else None
  | None => None
  end.

(** The login route's [action]; [authenticated] is what
    [authenticateUser(email, password)] answered. *)
Definition login (authenticated : option User) (session : Session)
  : Outcome unit :=
  match authenticated with
  | None => ErrorData "Invalid credentials" 400
  | Some user =>
      Redirect "/dashboard"
        (Some {| userId := Some (id user); onboarding := onboarding session |})
  end.

(** The admin route's [loader]: the admin data, or the thrown
    [UnauthorizedError] with its message. *)
Definition adminLoader {A : Type} (db : gmap string User) (adminData : A)
  (session : Session) : A + string :=
  match getUser db session with
  | Some user => if isAdmin user then inl adminData
                 else inr "Admin access required"
  | None => inr "Admin access required"
  end.

(** onboarding.step-1 [action]. *)
Definition step1Action (formData : string -> option string)
  (session : Session) : Outcome unit :=
  let onboardingData := default None (onboarding session) in
  let onboardingData1 :=
    Some (mkStep1 (formData "name") (formData "email")) in
  Redirect "/onboarding/step-2"
    (Some {| userId := userId session; onboarding := Some onboardingData1 |}).

(** onboarding.step-2 [loader]. *)
Definition step2Loader (session : Session) : Outcome Step1 :=
  match onboarding session with
  | Some (Some step1) => Data step1
  | _ => Redirect "/onboarding/step-1" None
  end.

(** onboarding.step-2 [action]. *)
Definition step2Action (createUser : NewUser -> User)
  (formData : string -> option string) (session : Session) : Outcome unit :=
  let onboardingData := default None (onboarding session) in
  let user := createUser (mkNewUser onboardingData (formData "preferences")) in
  Redirect "/dashboard"
    (Some {| userId := Some (id user); onboarding := None |}).

(** The session of the request that follows a response: the committed one
    if the response set the cookie, the previous one otherwise. *)
Definition nextSession {A : Type} (previous : Session) (r : Outcome A)
  : Session :=
  match r with
  | Redirect _ (Some committed) => committed
  | _ => previous
  end.

End Sessions.

(** ** Optimistic toggle (app/routes/todo-list.tsx) *)

Module TodoItem.

(** [b.toString()] of a boolean. *)
Definition toString (b : bool) : string := if b then "true" else "false".

(** [fetcher.formData ? fetcher.formData.get("completed") === "true"
    : todo.completed]; [formData] is [None] while nothing is submitted. *)
Definition optimisticCompleted (formData : option (string -> option string))
  (completed : bool) : bool :=
  match formData with
  | Some form => bool_decide (form "completed" = Some "true")
  | None => completed
  end.

(** The fields of the form as rendered: the hidden inputs [id] and
    [completed]. *)
Definition renderedForm (todoId : string)
  (formData : option (string -> option string)) (completed : bool)
  : string -> option string :=
  fun field =>
    if String.eqb field "id" then Some todoId
    else if String.eqb field "completed"
         then Some (toString (negb (optimisticCompleted formData completed)))
         else None.

End TodoItem.

(** ** Basic facts about [check] *)

Section CheckFacts.

Variable limiter : RateLimit.
Variable request : Request.
Variable now : Z.

Local Abbreviation opts := (options limiter).
Local Abbreviation key := (clientKey opts request).
Local Abbreviation valid :=
  (validRequests (now - windowMs opts) (stored limiter key)).

Lemma ensureKey_lookup_eq (k : string) (m : gmap string (list Z)) :
  ensureKey k m !! k = Some (default [] (m !! k)).
Proof.
  unfold ensureKey. destruct (m !! k) as [l|] eqn:E; simpl.
  - exact E.
  - apply lookup_insert_eq.
Qed.

Lemma ensureKey_lookup_ne (k k' : string) (m : gmap string (list Z)) :
  k ≠ k' -> ensureKey k m !! k' = m !! k'.
Proof.
  intros Hne. unfold ensureKey. destruct (m !! k); [reflexivity|].
  now apply lookup_insert_ne.
Qed.

Lemma check_options : options (fst (check limiter request now)) = options limiter.
Proof. unfold check. now destruct (_ >=? _). Qed.

Lemma check_result :
  snd (check limiter request now)
  = negb (Z.of_nat (length valid) >=? maxRequests opts).
Proof.
  unfold check, stored.
  rewrite ensureKey_lookup_eq. simpl.
  now destruct (_ >=? _).
Qed.

Lemma check_lookup_key :
  requests (fst (check limiter request now)) !! key
  = Some (if snd (check limiter request now)
          then valid ++ [now] else stored limiter key).
Proof.
  rewrite check_result.
  unfold check, stored.
  rewrite ensureKey_lookup_eq. simpl.
  destruct (_ >=? _); simpl.
  - apply ensureKey_lookup_eq.
  - apply lookup_insert_eq.
Qed.

Lemma check_stored_key :
  stored (fst (check limiter request now)) key
  = if snd (check limiter request now) then valid ++ [now] else stored limiter key.
Proof. unfold stored at 1. now rewrite check_lookup_key. Qed.

Lemma check_lookup_other (k' : string) :
  k' ≠ key ->
  requests (fst (check limiter request now)) !! k' = requests limiter !! k'.
Proof.
  intros Hne. unfold check.
  destruct (_ >=? _); simpl.
  - now apply ensureKey_lookup_ne.
  - rewrite lookup_insert_ne by congruence. now apply ensureKey_lookup_ne.
Qed.

Lemma check_stored_other (k' : string) :
  k' ≠ key -> stored (fst (check limiter request now)) k' = stored limiter k'.
Proof. intros Hne. unfold stored. now rewrite check_lookup_other. Qed.

End CheckFacts.

(** ** Counting timestamps *)

Lemma validRequests_app (x : Z) (l1 l2 : list Z) :
  validRequests x (l1 ++ l2) = validRequests x l1 ++ validRequests x l2.
Proof. apply List.filter_app. Qed.

Lemma validRequests_narrow (x y : Z) (l : list Z) :
  x <= y -> validRequests y (validRequests x l) = validRequests y l.
Proof.
  intros Hxy. unfold validRequests.
  induction l as [|t l IH]; simpl; [reflexivity|].
  destruct (t >? x) eqn:Ex; simpl.
  - now rewrite IH.
  - rewrite IH. destruct (t >? y) eqn:Ey; [|reflexivity].
    apply Z.gtb_lt in Ey. rewrite Z.gtb_ltb in Ex. apply Z.ltb_ge in Ex. lia.
Qed.

Lemma validRequests_ltb (x : Z) (l : list Z) :
  List.filter (fun timestamp => x <? timestamp) l = validRequests x l.
Proof.
  unfold validRequests. apply List.filter_ext. intros t.
  symmetry. apply Z.gtb_ltb.
Qed.

Lemma validRequests_length (x : Z) (l : list Z) :
  (length (validRequests x l) <= length l)%nat.
Proof. apply List.filter_length_le. Qed.

Lemma filter_length_implies (p q : Z -> bool) (l : list Z) :
  (forall t, p t = true -> q t = true) ->
  (length (List.filter p l) <= length (List.filter q l))%nat.
Proof.
  intros Hpq. induction l as [|t l IH]; simpl; [lia|].
  destruct (p t) eqn:Ep.
  - rewrite (Hpq t Ep). simpl. lia.
  - destruct (q t); simpl; lia.
Qed.

Lemma filter_full_length (p : Z -> bool) (l : list Z) :
  length (List.filter p l) = length l -> List.filter p l = l.
Proof.
  induction l as [|t l IH]; simpl; [reflexivity|].
  destruct (p t); simpl; intros Hlen.
  - f_equal. apply IH. lia.
  - pose proof (List.filter_length_le p l). lia.
Qed.

Lemma validRequests_elem (x t : Z) (l : list Z) :
  In t (validRequests x l) <-> In t l /\ x < t.
Proof.
  unfold validRequests. rewrite List.filter_In.
  rewrite Z.gtb_ltb, Z.ltb_lt. reflexivity.
Qed.

Lemma inWindow_rev (w e : Z) (l : list Z) :
  inWindow w e (rev l) = inWindow w e l.
Proof.
  unfold inWindow. induction l as [|t l IH]; simpl; [reflexivity|].
  rewrite List.filter_app, List.length_app, IH. simpl.
  destruct (_ && _); simpl; lia.
Qed.

Lemma inWindow_le_valid (w e a : Z) (l : list Z) :
  a <= e -> (inWindow w e l <= length (validRequests (a - w) l))%nat.
Proof.
  intros Hae. apply filter_length_implies. intros t Ht.
  apply andb_true_iff in Ht as [Ht _].
  apply Z.gtb_lt in Ht. apply Z.gtb_lt. lia.
Qed.

Lemma window_bound (w m e : Z) (history : list Z) :
  0 <= m -> withinBudget w m history ->
  Z.of_nat (inWindow w e history) <= m.
Proof.
  intros Hm. induction history as [|a older IH]; cbn [withinBudget].
  - intros _. exact Hm.
  - intros [Ha Holder].
    destruct (Z_le_gt_dec a e) as [Hle|Hgt].
    + pose proof (inWindow_le_valid w e a (a :: older) Hle). lia.
    + unfold inWindow in *. cbn [List.filter].
      replace (a <=? e) with false by (symmetry; apply Z.leb_gt; lia).
      rewrite andb_false_r. now apply IH.
Qed.

(** ** Runs of the limiter *)

Lemma admittedTimes_cons limiter request now rest key :
  admittedTimes limiter ((request, now) :: rest) key
  = (if snd (check limiter request now)
        && bool_decide (clientKey (options limiter) request = key)
     then [now] else [])
    ++ admittedTimes (fst (check limiter request now)) rest key.
Proof. cbn [admittedTimes]. now destruct (check limiter request now). Qed.

Lemma run_cons limiter request now rest :
  run limiter ((request, now) :: rest)
  = (fst (run (fst (check limiter request now)) rest),
     snd (check limiter request now)
     :: snd (run (fst (check limiter request now)) rest)).
Proof.
  cbn [run]. destruct (check limiter request now) as [l1 ok]. simpl.
  now destruct (run l1 rest).
Qed.

Lemma keyTimes_cons opts key request now rest :
  keyTimes opts key ((request, now) :: rest)
  = if bool_decide (clientKey opts request = key)
    then now :: keyTimes opts key rest else keyTimes opts key rest.
Proof. unfold keyTimes. simpl. now destruct (bool_decide _). Qed.

Lemma run_options limiter calls :
  options (fst (run limiter calls)) = options limiter.
Proof.
  revert limiter. induction calls as [|[request now] rest IH]; intros limiter.
  - reflexivity.
  - rewrite run_cons. simpl. rewrite IH. apply check_options.
Qed.

Section AdmissionBound.

Variable opts : RateLimitOptions.
Variable key : string.

Local Abbreviation w := (windowMs opts).
Local Abbreviation m := (maxRequests opts).

(** An admission extends the history within budget and keeps the stored
    sequence covering it. *)
Lemma admission_step limiter request now bound history :
  options limiter = opts ->
  clientKey opts request = key ->
  bound <= now ->
  covers w bound limiter key history ->
  snd (check limiter request now) = true ->
  Z.of_nat (length (validRequests (now - w) (now :: history))) <= m
  /\ covers w now (fst (check limiter request now)) key (now :: history).
Proof.
  intros Hopts Hkey Hbound Hcov Hok.
  pose proof (check_stored_key limiter request now) as Hst.
  rewrite Hok in Hst. rewrite check_result in Hok.
  rewrite Hopts, Hkey in Hst, Hok.
  apply negb_true_iff in Hok. rewrite Z.geb_leb in Hok. apply Z.leb_gt in Hok.
  split.
  - pose proof (Hcov now Hbound) as Hc.
    change (now :: history) with ([now] ++ history).
    rewrite validRequests_app, List.length_app.
    pose proof (validRequests_length (now - w) [now]) as H1.
    cbn [length] in H1. lia.
  - intros x Hx. rewrite Hst.
    change (now :: history) with ([now] ++ history).
    rewrite !validRequests_app, !List.length_app.
    rewrite validRequests_narrow by lia.
    pose proof (Hcov x ltac:(lia)). lia.
Qed.

Lemma run_withinBudget calls : forall limiter history bound,
  options limiter = opts ->
  covers w bound limiter key history ->
  withinBudget w m history ->
  Forall (Z.le bound) (keyTimes opts key calls) ->
  StronglySorted Z.le (keyTimes opts key calls) ->
  withinBudget w m (rev (admittedTimes limiter calls key) ++ history).
Proof.
  induction calls as [|[request now] rest IH];
    intros limiter history bound Hopts Hcov Hbud Hall Hsorted.
  - exact Hbud.
  - rewrite admittedTimes_cons, Hopts.
    rewrite keyTimes_cons in Hall, Hsorted.
    pose proof (check_options limiter request now) as Hopts1.
    rewrite Hopts in Hopts1.
    destruct (bool_decide (clientKey opts request = key)) eqn:Ekey.
    + apply bool_decide_eq_true in Ekey.
      apply Forall_cons in Hall as [Hnow _].
      apply StronglySorted_inv in Hsorted as [Hsorted Hlater].
      destruct (snd (check limiter request now)) eqn:Eok; cbn [andb].
      * destruct (admission_step limiter request now bound history
                    Hopts Ekey Hnow Hcov Eok) as [Hfit Hcov1].
        rewrite List.rev_app_distr. cbn [rev app]. rewrite <- List.app_assoc.
        cbn [app].
        apply (IH _ (now :: history) now); auto.
        cbn [withinBudget]. split; assumption.
      * cbn [app].
        apply (IH _ history now); auto.
        intros x Hx. pose proof (check_stored_key limiter request now) as Hst.
        rewrite Eok, Hopts, Ekey in Hst. rewrite Hst. apply Hcov. lia.
    + apply bool_decide_eq_false in Ekey.
      rewrite andb_false_r. cbn [app].
      apply (IH _ history bound); auto.
      intros x Hx. rewrite check_stored_other.
      * now apply Hcov.
      * rewrite Hopts. congruence.
Qed.

End AdmissionBound.

Lemma lower_bound_exists (l : list Z) : exists b, Forall (Z.le b) l.
Proof.
  induction l as [|t l [b Hb]].
  - exists 0. constructor.
  - exists (Z.min t b). constructor; [lia|].
    eapply Forall_impl; [exact Hb|]. intros; simpl in *; lia.
Qed.

Lemma StronglySorted_lt_le (l : list Z) :
  StronglySorted Z.lt l -> StronglySorted Z.le l.
Proof.
  induction 1 as [|t l Hs IH Hall]; constructor; [assumption|].
  eapply Forall_impl; [exact Hall|]. intros; simpl in *; lia.
Qed.

(** The admission bound for clocks that may repeat a reading. *)
Lemma admission_bound_monotone (opts : RateLimitOptions)
  (calls : list (Request * Z)) (key : string) (e : Z) :
  0 <= maxRequests opts ->
  StronglySorted Z.le (keyTimes opts key calls) ->
  Z.of_nat (inWindow (windowMs opts) e (admittedTimes (fresh opts) calls key))
  <= maxRequests opts.
Proof.
  intros Hm Hsorted.
  destruct (lower_bound_exists (keyTimes opts key calls)) as [b Hb].
  rewrite <- inWindow_rev.
  apply window_bound; [exact Hm|].
  rewrite <- (List.app_nil_r (rev _)).
  apply (run_withinBudget opts key calls (fresh opts) [] b); auto.
  - intros x _. simpl. lia.
  - exact I.
Qed.

(** C1. For any client key and any run of [check] calls in which the
    calls of that key carry strictly increasing timestamps, the number of
    admitted calls of the key whose timestamps lie in a trailing window
    [(e - windowMs, e]] never exceeds [maxRequests] (a budget that is not
    negative, as the configuration contract has it). *)
Theorem admission_bound (opts : RateLimitOptions)
  (calls : list (Request * Z)) (key : string) (e : Z) :
  0 <= maxRequests opts ->
  StronglySorted Z.lt (keyTimes opts key calls) ->
  Z.of_nat (inWindow (windowMs opts) e (admittedTimes (fresh opts) calls key))
  <= maxRequests opts.
Proof.
  intros Hm Hsorted. apply admission_bound_monotone; [exact Hm|].
  now apply StronglySorted_lt_le.
Qed.

Lemma admission_bound_witness :
  admittedTimes (fresh scenarioOptions) scenarioCalls "k" = [0; 100; 200; 1001]
  /\ Z.of_nat (inWindow 1000 1001
                 (admittedTimes (fresh scenarioOptions) scenarioCalls "k")) <= 3.
Proof.
  split; [vm_compute; reflexivity|].
  apply (admission_bound scenarioOptions scenarioCalls "k" 1001).
  - simpl. lia.
  - vm_compute. repeat constructor.
Defined.

(** C4. With a window of 1000 ms and a budget of 3, five calls of one key
    at times 0, 100, 200, 900, 1001 answer true, true, true, false, true. *)
Theorem scenario_results :
  snd (run (fresh scenarioOptions) scenarioCalls)
  = [true; true; true; false; true].
Proof. vm_compute. reflexivity. Qed.

(** ** Size of the stored sequences *)

Lemma fresh_bounded (opts : RateLimitOptions) : bounded (fresh opts).
Proof. intros key. left. reflexivity. Qed.

Lemma check_bounded limiter request now :
  bounded limiter -> bounded (fst (check limiter request now)).
Proof.
  intros Hb k. rewrite check_options.
  destruct (decide (k = clientKey (options limiter) request)) as [->|Hne].
  - rewrite check_stored_key.
    destruct (snd (check limiter request now)) eqn:Eok; [|apply Hb].
    right. rewrite check_result in Eok.
    apply negb_true_iff in Eok. rewrite Z.geb_leb in Eok. apply Z.leb_gt in Eok.
    rewrite List.length_app. simpl. lia.
  - rewrite check_stored_other by exact Hne. apply Hb.
Qed.

Lemma run_bounded limiter calls :
  bounded limiter -> bounded (fst (run limiter calls)).
Proof.
  revert limiter. induction calls as [|[request now] rest IH]; intros limiter Hb.
  - exact Hb.
  - rewrite run_cons. simpl. apply IH. now apply check_bounded.
Qed.

(** What one [check] can do to the entry of a key: leave it alone, create
    it empty, or store a filtered sequence shorter than the budget with the
    current time appended. *)
Lemma check_replaces limiter request now (k : string) :
  let after := requests (fst (check limiter request now)) !! k in
  let valid := validRequests (now - windowMs (options limiter)) (stored limiter k) in
  after = requests limiter !! k
  \/ after = Some []
  \/ (after = Some (valid ++ [now])
      /\ Z.of_nat (length valid) < maxRequests (options limiter)).
Proof.
  intros after valid. subst after valid.
  destruct (decide (k = clientKey (options limiter) request)) as [->|Hne].
  - rewrite check_lookup_key.
    destruct (snd (check limiter request now)) eqn:Eok.
    + right. right. split; [reflexivity|].
      rewrite check_result in Eok.
      apply negb_true_iff in Eok. rewrite Z.geb_leb in Eok.
      now apply Z.leb_gt in Eok.
    + unfold stored.
      destruct (requests limiter !! clientKey (options limiter) request);
        [left|right; left]; reflexivity.
  - left. now apply check_lookup_other.
Qed.

(** On a denial the filter has nothing to remove. *)
Lemma denial_nothing_stale limiter request now :
  bounded limiter ->
  snd (check limiter request now) = false ->
  validRequests (now - windowMs (options limiter))
    (stored limiter (clientKey (options limiter) request))
  = stored limiter (clientKey (options limiter) request).
Proof.
  intros Hb Eok. rewrite check_result in Eok.
  apply negb_false_iff in Eok. rewrite Z.geb_leb in Eok. apply Z.leb_le in Eok.
  destruct (Hb (clientKey (options limiter) request)) as [Hnil|Hlen].
  - now rewrite Hnil.
  - apply filter_full_length.
    pose proof (validRequests_length (now - windowMs (options limiter))
                  (stored limiter (clientKey (options limiter) request))).
    unfold validRequests in *. lia.
Qed.

Lemma check_refines_spec limiter request now :
  bounded limiter ->
  check limiter request now = check_spec limiter request now.
Proof.
  intros Hb.
  pose proof (denial_nothing_stale limiter request now Hb) as Hstale.
  rewrite check_result in Hstale.
  unfold check, check_spec, stored in *.
  rewrite !validRequests_ltb.
  rewrite ensureKey_lookup_eq. cbn [default] in *.
  destruct (_ >=? _) eqn:E.
  - rewrite (Hstale eq_refl). f_equal. f_equal.
    unfold ensureKey.
    destruct (requests limiter !! clientKey (options limiter) request) eqn:El.
    + symmetry. now apply insert_id.
    + reflexivity.
  - f_equal. f_equal. unfold ensureKey.
    destruct (requests limiter !! clientKey (options limiter) request) eqn:El.
    + reflexivity.
    + apply insert_insert_eq.
Qed.

Lemma reached_bounded opts calls : bounded (reached opts calls).
Proof. apply run_bounded, fresh_bounded. Qed.

Lemma reached_options opts calls : options (reached opts calls) = opts.
Proof. unfold reached. now rewrite run_options. Qed.

(** C2. After any run of calls from a new limiter, the next [check] leaves
    the map exactly as the specification's steps do, whether it answers
    true or false.  The entry of the computed key then holds the
    timestamps that were stored before and are greater than
    [windowStart = now - windowMs], in their old order, followed by [now]
    on admission only: a timestamp is stored afterwards exactly when it
    was stored before and is newer than [windowStart], or the call was
    admitted and the timestamp is [now].  In particular after a denial no
    stored timestamp of that key is [windowStart] or older.  (The source
    returns before storing on a denial; there every stored timestamp is
    still inside the window, so the entry already is its pruned version.) *)
Theorem pruning_on_every_check (opts : RateLimitOptions)
  (calls : list (Request * Z)) (request : Request) (now : Z) :
  check (reached opts calls) request now
  = check_spec (reached opts calls) request now
  /\ stored (fst (check (reached opts calls) request now))
       (clientKey opts request)
     = List.filter (fun t => now - windowMs opts <? t)
         (stored (reached opts calls) (clientKey opts request))
       ++ (if snd (check (reached opts calls) request now) then [now] else [])
  /\ (forall t,
        In t (stored (fst (check (reached opts calls) request now))
                (clientKey opts request))
        <-> In t (stored (reached opts calls) (clientKey opts request))
            /\ now - windowMs opts < t
            \/ snd (check (reached opts calls) request now) = true
               /\ t = now)
  /\ (if snd (check (reached opts calls) request now) then True
      else Forall (fun t => now - windowMs opts < t)
             (stored (fst (check (reached opts calls) request now))
                (clientKey opts request))).
Proof.
  pose proof (reached_bounded opts calls) as Hb.
  pose proof (reached_options opts calls) as Ho.
  pose proof (check_stored_key (reached opts calls) request now) as Hst.
  pose proof (denial_nothing_stale (reached opts calls) request now Hb) as Hd.
  rewrite Ho in Hst, Hd.
  assert (Hseq :
    stored (fst (check (reached opts calls) request now))
      (clientKey opts request)
    = List.filter (fun t => now - windowMs opts <? t)
        (stored (reached opts calls) (clientKey opts request))
      ++ (if snd (check (reached opts calls) request now) then [now] else [])).
  { rewrite validRequests_ltb, Hst.
    destruct (snd (check (reached opts calls) request now)); [reflexivity|].
    now rewrite (Hd eq_refl), List.app_nil_r. }
  split; [now apply check_refines_spec|].
  split; [exact Hseq|]. split.
  - intros t. rewrite Hseq, List.in_app_iff, List.filter_In, Z.ltb_lt.
    destruct (snd (check (reached opts calls) request now)); simpl.
    + split; [intros [H|[H|[]]]|intros [H|[_ H]]]; auto.
    + split; [intros [H|[]]|intros [H|[H _]]]; auto. discriminate.
  - destruct (snd (check (reached opts calls) request now)); [exact I|].
    rewrite Hseq, List.app_nil_r. apply List.Forall_forall. intros t Ht.
    apply List.filter_In in Ht as [_ Ht]. now apply Z.ltb_lt.
Qed.

(** The fourth call of the scenario is a denial that leaves the three
    stored timestamps in place: none of them is stale. *)
Example scenario_denial :
  let limiter := reached scenarioOptions (firstn 3 scenarioCalls) in
  check limiter (requestFrom "k") 900
  = ({| options := scenarioOptions;
        requests := {[ "k" := [0; 100; 200] ]} |}, false).
Proof. vm_compute. reflexivity. Qed.

(** Reachability matters: on a map that no run produces (four timestamps
    stored under a budget of three) a denial keeps the stale timestamp 0
    where the specification's steps would drop it. *)
Example stale_kept_outside_reachable_states :
  let limiter := {| options := scenarioOptions;
                    requests := {[ "k" := [0; 1500; 1600; 1700] ]} |} in
  stored (fst (check limiter (requestFrom "k") 1800)) "k"
  = [0; 1500; 1600; 1700]
  /\ stored (fst (check_spec limiter (requestFrom "k") 1800)) "k"
     = [1500; 1600; 1700]
  /\ ~ bounded limiter.
Proof.
  split; [vm_compute; reflexivity|]. split; [vm_compute; reflexivity|].
  intros Hb. destruct (Hb "k") as [Hnil|Hlen].
  - vm_compute in Hnil. discriminate.
  - vm_compute in Hlen. now apply Hlen.
Qed.

(** C9. Starting from the empty map, after any run of [check] calls the
    stored sequence of every key is no longer than [maxRequests] (a budget
    that is not negative, as the configuration contract has it). *)
Theorem stored_length_bound (opts : RateLimitOptions)
  (calls : list (Request * Z)) (key : string) :
  0 <= maxRequests opts ->
  Z.of_nat (length (stored (reached opts calls) key)) <= maxRequests opts.
Proof.
  intros Hm.
  destruct (reached_bounded opts calls key) as [Hnil|Hlen].
  - rewrite Hnil. simpl. exact Hm.
  - now rewrite reached_options in Hlen.
Qed.

Lemma stored_length_bound_witness :
  stored (reached scenarioOptions scenarioCalls) "k" = [100; 200; 1001]
  /\ Z.of_nat (length (stored (reached scenarioOptions scenarioCalls) "k")) <= 3.
Proof.
  split; [vm_compute; reflexivity|].
  apply (stored_length_bound scenarioOptions scenarioCalls "k").
  simpl. lia.
Defined.

(** ** Construction *)

(** C3, as the code has it.  Construction validates nothing: whatever the
    window and the budget, zero and negative values included, it yields a
    limiter holding these options and an empty map. *)
Theorem construction_never_fails (opts : RateLimitOptions) :
  new_RateLimit opts = Constructed {| options := opts; requests := ∅ |}.
Proof. reflexivity. Qed.

(** C3 fails as stated: a budget of zero and a negative window are
    accepted, and a limiter is produced. *)
Lemma construction_accepts_nonpositive :
  new_RateLimit {| windowMs := -1; maxRequests := 0; keyGenerator := None |}
  <> InvalidConfiguration
  /\ exists limiter,
       new_RateLimit {| windowMs := -1; maxRequests := 0; keyGenerator := None |}
       = Constructed limiter
       /\ maxRequests (options limiter) = 0
       /\ windowMs (options limiter) = -1.
Proof.
  split; [discriminate|].
  eexists. split; [reflexivity|]. split; reflexivity.
Qed.

(** A limiter built with a budget of zero or less denies every call. *)
Lemma nonpositive_budget_denies limiter request now :
  maxRequests (options limiter) <= 0 ->
  snd (check limiter request now) = false.
Proof.
  intros Hm. rewrite check_result. apply negb_false_iff.
  rewrite Z.geb_leb. apply Z.leb_le. lia.
Qed.

(** ** The window boundary *)

(** C5. A stored timestamp equal to [windowStart = now - windowMs] is not
    a valid request: the filter keeps exactly the stored timestamps
    strictly greater than [windowStart], the outcome of [check] is decided
    by their number alone, and a timestamp at the boundary changes neither
    the filtered sequence nor the outcome. *)
Theorem boundary_excluded (limiter : RateLimit) (request : Request) (now : Z) :
  ~ In (now - windowMs (options limiter))
      (validRequests (now - windowMs (options limiter))
         (stored limiter (clientKey (options limiter) request)))
  /\ (forall t,
        In t (validRequests (now - windowMs (options limiter))
                (stored limiter (clientKey (options limiter) request)))
        <-> In t (stored limiter (clientKey (options limiter) request))
            /\ now - windowMs (options limiter) < t)
  /\ snd (check limiter request now)
     = (Z.of_nat
          (length (validRequests (now - windowMs (options limiter))
                     (stored limiter (clientKey (options limiter) request))))
        <? maxRequests (options limiter))
  /\ (forall before after,
        validRequests (now - windowMs (options limiter))
          (before ++ (now - windowMs (options limiter)) :: after)
        = validRequests (now - windowMs (options limiter)) (before ++ after)).
Proof.
  split; [|split; [|split]].
  - intros Hin. apply validRequests_elem in Hin. lia.
  - intros t. apply validRequests_elem.
  - rewrite check_result, Z.geb_leb. symmetry. apply Z.ltb_antisym.
  - intros before after. rewrite !validRequests_app. f_equal.
    unfold validRequests. simpl.
    replace (now - windowMs (options limiter) >? now - windowMs (options limiter))
      with false; [reflexivity|].
    symmetry. rewrite Z.gtb_ltb. apply Z.ltb_irrefl.
Qed.

(** A probe made exactly [windowMs] after a stored timestamp is admitted
    whenever the stored sequence is within the budget: that timestamp no
    longer counts. *)
Lemma boundary_probe_admitted limiter request now :
  In (now - windowMs (options limiter))
     (stored limiter (clientKey (options limiter) request)) ->
  Z.of_nat (length (stored limiter (clientKey (options limiter) request)))
  <= maxRequests (options limiter) ->
  snd (check limiter request now) = true.
Proof.
  intros Hin Hlen. rewrite check_result. apply negb_true_iff.
  rewrite Z.geb_leb. apply Z.leb_gt.
  set (l := stored limiter (clientKey (options limiter) request)) in *.
  set (ws := now - windowMs (options limiter)) in *.
  assert (length (validRequests ws l) < length l)%nat; [|lia].
  clear Hlen. induction l as [|t l IH]; [destruct Hin|].
  unfold validRequests in *. simpl.
  destruct (t >? ws) eqn:Et; simpl.
  - destruct Hin as [->|Hin].
    + rewrite Z.gtb_ltb, Z.ltb_irrefl in Et. discriminate.
    + specialize (IH Hin). lia.
  - pose proof (List.filter_length_le (fun time => time >? ws) l). lia.
Qed.

(** The boundary scenario with a budget of three: a request at 5000, the
    next three one millisecond apart (the last is denied), and a probe at
    exactly 5000 + 1000, which is admitted. *)
Example boundary_scenario :
  snd (run (fresh scenarioOptions)
         (map (fun t => (requestFrom "k", t)) [5000; 5001; 5002; 5003; 6000]))
  = [true; true; true; false; true].
Proof. vm_compute. reflexivity. Qed.

(** ** The client key *)

Lemma js_or_truthy (a : option string) (b : string) :
  truthy b = true -> truthy (js_or a b) = true.
Proof.
  intros Hb. destruct a as [s|]; simpl; [|exact Hb].
  destruct (truthy s) eqn:Es; assumption.
Qed.

Lemma truthy_nonempty (s : string) : truthy s = true <-> s <> "".
Proof. destruct s; simpl; split; congruence. Qed.

Lemma getIP_truthy (request : Request) : truthy (getIP request) = true.
Proof. unfold getIP. apply js_or_truthy, js_or_truthy. reflexivity. Qed.

(** The key computed by [check] is never the empty string. *)
Lemma clientKey_nonempty opts request : clientKey opts request <> "".
Proof. apply truthy_nonempty, js_or_truthy, getIP_truthy. Qed.

Lemma js_or_some_nonempty (v b : string) : v <> "" -> js_or (Some v) b = v.
Proof. intros Hv. simpl. apply truthy_nonempty in Hv. now rewrite Hv. Qed.

Lemma js_or_blank (a : option string) (b : string) :
  a = None \/ a = Some "" -> js_or a b = b.
Proof. now intros [-> | ->]. Qed.

(** C6, as the code has it.  Without a key function the client key is the
    forwarded-address header when that header is present and not empty;
    otherwise the real-address header when present and not empty; otherwise
    the literal [unknown].  An absent header and an empty one are treated
    alike. *)
Theorem default_key (opts : RateLimitOptions) (request : Request) :
  keyGenerator opts = None ->
  (forall v, Headers_get request "x-forwarded-for" = Some v -> v <> "" ->
             clientKey opts request = v)
  /\ (Headers_get request "x-forwarded-for" = None
      \/ Headers_get request "x-forwarded-for" = Some "" ->
      forall v, Headers_get request "x-real-ip" = Some v -> v <> "" ->
                clientKey opts request = v)
  /\ (Headers_get request "x-forwarded-for" = None
      \/ Headers_get request "x-forwarded-for" = Some "" ->
      Headers_get request "x-real-ip" = None
      \/ Headers_get request "x-real-ip" = Some "" ->
      clientKey opts request = "unknown").
Proof.
  intros Hgen. unfold clientKey, getIP. rewrite Hgen. simpl.
  split; [|split].
  - intros v -> Hv. now apply js_or_some_nonempty.
  - intros Hfwd v -> Hv. rewrite (js_or_blank _ _ Hfwd).
    now apply js_or_some_nonempty.
  - intros Hfwd Hreal. rewrite (js_or_blank _ _ Hfwd).
    now apply js_or_blank.
Qed.

Lemma default_key_witness :
  clientKey scenarioOptions emptyForwarded = "10.0.0.1".
Proof.
  refine (proj1 (proj2 (default_key scenarioOptions emptyForwarded _)) _
            "10.0.0.1" _ _).
  - reflexivity.
  - right. vm_compute. reflexivity.
  - vm_compute. reflexivity.
  - discriminate.
Defined.

(** C6 fails as stated: the forwarded-address header is present, its value
    is the empty string, and the key is the real-address header instead. *)
Lemma default_key_skips_empty_header :
  keyGenerator scenarioOptions = None
  /\ Headers_get emptyForwarded "x-forwarded-for" = Some ""
  /\ clientKey scenarioOptions emptyForwarded = "10.0.0.1"
  /\ clientKey scenarioOptions emptyForwarded <> "".
Proof. repeat split; try (vm_compute; reflexivity). discriminate. Qed.

(** C10. When the supplied key function answers the empty string, the
    client key is the header-based one, and it is not the empty string. *)
Theorem empty_generated_key_falls_back (opts : RateLimitOptions)
  (g : Request -> string) (request : Request) :
  keyGenerator opts = Some g ->
  g request = "" ->
  clientKey opts request = getIP request
  /\ clientKey opts request <> ""
  /\ forall limiter now,
       options limiter = opts ->
       requests (fst (check limiter request now)) !! ""
       = requests limiter !! "".
Proof.
  intros Hgen Hg.
  assert (Hkey : clientKey opts request = getIP request).
  { unfold clientKey. rewrite Hgen. simpl. now rewrite Hg. }
  split; [exact Hkey|]. split; [apply clientKey_nonempty|].
  intros limiter now Ho. apply check_lookup_other.
  rewrite Ho. apply not_eq_sym, clientKey_nonempty.
Qed.

Lemma empty_generated_key_falls_back_witness :
  clientKey blankKeyOptions (requestFrom "203.0.113.7") = "203.0.113.7".
Proof.
  destruct (empty_generated_key_falls_back blankKeyOptions (fun _ => "")
              (requestFrom "203.0.113.7") eq_refl eq_refl) as [Hkey _].
  rewrite Hkey. vm_compute. reflexivity.
Defined.

(** ** Independence of keys *)

Lemma check_congruent l1 l2 r1 r2 now :
  requests l1 = requests l2 ->
  windowMs (options l1) = windowMs (options l2) ->
  maxRequests (options l1) = maxRequests (options l2) ->
  clientKey (options l1) r1 = clientKey (options l2) r2 ->
  snd (check l1 r1 now) = snd (check l2 r2 now)
  /\ requests (fst (check l1 r1 now)) = requests (fst (check l2 r2 now)).
Proof.
  intros Hreq Hw Hm Hkey. unfold check.
  rewrite Hreq, Hw, Hm, Hkey.
  destruct (_ >=? _); split; reflexivity.
Qed.

Lemma check_local limiter limiter' request now :
  options limiter' = options limiter ->
  requests limiter' !! clientKey (options limiter) request
  = requests limiter !! clientKey (options limiter) request ->
  snd (check limiter' request now) = snd (check limiter request now)
  /\ requests (fst (check limiter' request now))
       !! clientKey (options limiter) request
     = requests (fst (check limiter request now))
         !! clientKey (options limiter) request.
Proof.
  intros Ho Hk.
  assert (Hst : stored limiter' (clientKey (options limiter) request)
                = stored limiter (clientKey (options limiter) request)).
  { unfold stored. now rewrite Hk. }
  assert (Hres : snd (check limiter' request now)
                 = snd (check limiter request now)).
  { rewrite !check_result. now rewrite Ho, Hst. }
  split; [exact Hres|].
  rewrite check_lookup_key.
  pose proof (check_lookup_key limiter' request now) as Hl.
  rewrite Ho in Hl. rewrite Hl, Hres, Hst.
  destruct (snd (check limiter request now)); reflexivity.
Qed.

Lemma run_lookup_other (k : string) calls : forall limiter,
  Forall (fun c => clientKey (options limiter) (fst c) <> k) calls ->
  requests (fst (run limiter calls)) !! k = requests limiter !! k.
Proof.
  induction calls as [|[request now] rest IH]; intros limiter Hall.
  - reflexivity.
  - apply Forall_cons in Hall as [Hhd Htl]. simpl in Hhd.
    rewrite run_cons. simpl. rewrite IH.
    + apply check_lookup_other. congruence.
    + now rewrite check_options.
Qed.

(** C7. A [check] for one key leaves the entry of every other key as it
    was; its answer and the new entry of its own key are determined by the
    old entry of that key alone; so whatever calls are made for other keys
    first, exhausting their budgets included, the answer is the same. *)
Theorem key_independence (limiter : RateLimit) (request : Request) (now : Z)
  (other : string) :
  other <> clientKey (options limiter) request ->
  requests (fst (check limiter request now)) !! other
  = requests limiter !! other
  /\ (forall limiter',
        options limiter' = options limiter ->
        requests limiter' !! clientKey (options limiter) request
        = requests limiter !! clientKey (options limiter) request ->
        snd (check limiter' request now) = snd (check limiter request now)
        /\ requests (fst (check limiter' request now))
             !! clientKey (options limiter) request
           = requests (fst (check limiter request now))
               !! clientKey (options limiter) request)
  /\ (forall calls,
        Forall (fun c => clientKey (options limiter) (fst c)
                         <> clientKey (options limiter) request) calls ->
        snd (check (fst (run limiter calls)) request now)
        = snd (check limiter request now)).
Proof.
  intros Hother. split; [|split].
  - now apply check_lookup_other.
  - intros limiter'. apply check_local.
  - intros calls Hall. apply check_local.
    + apply run_options.
    + now apply run_lookup_other.
Qed.

Lemma key_independence_witness :
  snd (run (fresh scenarioOptions)
         (map (fun t => (requestFrom "a", t)) [0; 1; 2; 3]))
  = [true; true; true; false]
  /\ snd (check (reached scenarioOptions
                   (map (fun t => (requestFrom "a", t)) [0; 1; 2; 3]))
            (requestFrom "b") 3)
     = snd (check (fresh scenarioOptions) (requestFrom "b") 3).
Proof.
  split; [vm_compute; reflexivity|].
  refine (proj2 (proj2 (key_independence (fresh scenarioOptions)
                          (requestFrom "b") 3 "a" _)) _ _).
  - vm_compute. discriminate.
  - repeat constructor; vm_compute; discriminate.
Defined.

(** ** Determinism *)

Lemma run_congruent calls1 : forall calls2 l1 l2,
  requests l1 = requests l2 ->
  windowMs (options l1) = windowMs (options l2) ->
  maxRequests (options l1) = maxRequests (options l2) ->
  Forall2 (fun c1 c2 =>
             clientKey (options l1) (fst c1) = clientKey (options l2) (fst c2)
             /\ snd c1 = snd c2) calls1 calls2 ->
  snd (run l1 calls1) = snd (run l2 calls2).
Proof.
  induction calls1 as [|[r1 t1] rest1 IH]; intros calls2 l1 l2 Hreq Hw Hm Hall.
  - apply Forall2_nil_inv_l in Hall. now subst.
  - apply Forall2_cons_inv_l in Hall as ([r2 t2] & rest2 & [Hkey Ht] & Hrest & ->).
    simpl in Hkey, Ht. subst t2.
    rewrite !run_cons. simpl.
    destruct (check_congruent l1 l2 r1 r2 t1 Hreq Hw Hm Hkey) as [Hres Hreq1].
    rewrite Hres. f_equal.
    apply IH; rewrite ?check_options; assumption.
Qed.

(** C8. Two limiters built from configurations with the same window and
    budget, fed call sequences that agree call by call on the client key
    and on the timestamp, give the same sequence of answers.  Identical
    configurations and identical call sequences are the special case
    [check_deterministic_same]. *)
Theorem check_deterministic (opts1 opts2 : RateLimitOptions)
  (calls1 calls2 : list (Request * Z)) :
  windowMs opts1 = windowMs opts2 ->
  maxRequests opts1 = maxRequests opts2 ->
  Forall2 (fun c1 c2 =>
             clientKey opts1 (fst c1) = clientKey opts2 (fst c2)
             /\ snd c1 = snd c2) calls1 calls2 ->
  forall l1 l2,
    new_RateLimit opts1 = Constructed l1 ->
    new_RateLimit opts2 = Constructed l2 ->
    snd (run l1 calls1) = snd (run l2 calls2).
Proof.
  intros Hw Hm Hall l1 l2 H1 H2.
  injection H1 as <-. injection H2 as <-.
  now apply run_congruent.
Qed.

Lemma check_deterministic_same (opts : RateLimitOptions)
  (calls : list (Request * Z)) l1 l2 :
  new_RateLimit opts = Constructed l1 ->
  new_RateLimit opts = Constructed l2 ->
  snd (run l1 calls) = snd (run l2 calls).
Proof.
  intros H1 H2. rewrite H1 in H2. now injection H2 as ->.
Qed.

Lemma check_deterministic_witness :
  snd (run (fresh scenarioOptions) scenarioCalls)
  = snd (run (fresh blankKeyOptions) scenarioCalls).
Proof.
  apply (check_deterministic scenarioOptions blankKeyOptions
           scenarioCalls scenarioCalls).
  - reflexivity.
  - reflexivity.
  - repeat constructor.
  - reflexivity.
  - reflexivity.
Defined.

(** ** What the stored sequences hold *)

Lemma validRequests_sublist (x : Z) (l : list Z) :
  validRequests x l `sublist_of` l.
Proof.
  unfold validRequests. induction l as [|t l IH]; simpl; [constructor|].
  destruct (t >? x); now constructor.
Qed.

Lemma sublist_validRequests_length (x : Z) (l1 l2 : list Z) :
  l1 `sublist_of` l2 ->
  (length (validRequests x l1) <= length (validRequests x l2))%nat.
Proof.
  unfold validRequests. induction 1 as [|t l1 l2 _ IH|t l1 l2 _ IH]; simpl.
  - lia.
  - destruct (t >? x); simpl; lia.
  - destruct (t >? x); simpl; lia.
Qed.

Lemma run_stored_sublist (key : string) calls : forall limiter history,
  stored limiter key `sublist_of` history ->
  stored (fst (run limiter calls)) key
    `sublist_of` history ++ admittedTimes limiter calls key.
Proof.
  induction calls as [|[request now] rest IH]; intros limiter history Hsub.
  - simpl. now rewrite List.app_nil_r.
  - rewrite run_cons, admittedTimes_cons. cbn [fst].
    rewrite List.app_assoc. apply IH.
    destruct (bool_decide (clientKey (options limiter) request = key)) eqn:Ek.
    + apply bool_decide_eq_true in Ek. subst key.
      rewrite check_stored_key.
      destruct (snd (check limiter request now)); cbn [andb].
      * apply sublist_app; [|reflexivity].
        etransitivity; [apply validRequests_sublist|exact Hsub].
      * now rewrite List.app_nil_r.
    + apply bool_decide_eq_false in Ek.
      rewrite andb_false_r, List.app_nil_r.
      rewrite check_stored_other by congruence. exact Hsub.
Qed.

Lemma reached_stored_sublist (opts : RateLimitOptions)
  (calls : list (Request * Z)) (key : string) :
  stored (reached opts calls) key
    `sublist_of` admittedTimes (fresh opts) calls key.
Proof.
  apply (run_stored_sublist key calls (fresh opts) []). constructor.
Qed.

(** X1.  Only admissions are recorded: the stored sequence of a key is a
    subsequence, in arrival order, of the times of its admitted calls. *)
Theorem stored_are_admissions (opts : RateLimitOptions)
  (calls : list (Request * Z)) (key : string) :
  stored (reached opts calls) key
    `sublist_of` admittedTimes (fresh opts) calls key.
Proof.
  unfold reached.
  apply (run_stored_sublist key calls (fresh opts) []).
  apply sublist_nil_l.
Qed.

Lemma admittedTimes_sublist_keyTimes (key : string) calls : forall limiter,
  admittedTimes limiter calls key
    `sublist_of` keyTimes (options limiter) key calls.
Proof.
  induction calls as [|[request now] rest IH]; intros limiter.
  - constructor.
  - rewrite admittedTimes_cons, keyTimes_cons.
    specialize (IH (fst (check limiter request now))).
    rewrite check_options in IH.
    destruct (bool_decide _); [|now rewrite andb_false_r].
    rewrite andb_true_r.
    destruct (snd (check limiter request now)); simpl; now constructor.
Qed.

Lemma StronglySorted_le_sublist (l1 l2 : list Z) :
  l1 `sublist_of` l2 -> StronglySorted Z.le l2 -> StronglySorted Z.le l1.
Proof.
  induction 1 as [|t l1 l2 Hsub IH|t l1 l2 Hsub IH]; intros Hs.
  - constructor.
  - apply StronglySorted_inv in Hs as [Hs Hall]. constructor; [now apply IH|].
    apply List.Forall_forall. intros u Hu.
    apply (proj1 (List.Forall_forall _ _) Hall).
    apply list_elem_of_In. eapply elem_of_sublist; [|exact Hsub].
    now apply list_elem_of_In.
  - apply StronglySorted_inv in Hs as [Hs _]. now apply IH.
Qed.

(** X2.  While the clock readings of a key's calls do not go backwards, the
    stored sequence of that key is in non-decreasing order. *)
Theorem stored_sorted (opts : RateLimitOptions)
  (calls : list (Request * Z)) (key : string) :
  StronglySorted Z.le (keyTimes opts key calls) ->
  StronglySorted Z.le (stored (reached opts calls) key).
Proof.
  intros Hs.
  apply (StronglySorted_le_sublist _ (keyTimes opts key calls)); [|exact Hs].
  etransitivity; [apply reached_stored_sublist|].
  apply (admittedTimes_sublist_keyTimes key calls (fresh opts)).
Qed.

Lemma stored_sorted_witness :
  StronglySorted Z.le (stored (reached scenarioOptions scenarioCalls) "k").
Proof.
  apply (stored_sorted scenarioOptions scenarioCalls "k").
  vm_compute. repeat constructor; discriminate.
Defined.

(** ** The window is exact *)

Lemma covers_later w bound bound' limiter key history :
  bound <= bound' ->
  covers w bound limiter key history -> covers w bound' limiter key history.
Proof. intros Hle Hcov x Hx. apply Hcov. lia. Qed.

Lemma run_covers (opts : RateLimitOptions) (key : string) (final : Z) calls :
  forall limiter history bound,
  options limiter = opts ->
  covers (windowMs opts) bound limiter key history ->
  bound <= final ->
  Forall (Z.le bound) (keyTimes opts key calls) ->
  Forall (fun t => t <= final) (keyTimes opts key calls) ->
  StronglySorted Z.le (keyTimes opts key calls) ->
  covers (windowMs opts) final (fst (run limiter calls)) key
    (rev (admittedTimes limiter calls key) ++ history).
Proof.
  induction calls as [|[request now] rest IH];
    intros limiter history bound Hopts Hcov Hbf Hlow Hup Hsorted.
  - simpl. now apply (covers_later _ bound).
  - rewrite run_cons, admittedTimes_cons, Hopts. cbn [fst].
    rewrite keyTimes_cons in Hlow, Hup, Hsorted.
    pose proof (check_options limiter request now) as Hopts1.
    rewrite Hopts in Hopts1.
    destruct (bool_decide (clientKey opts request = key)) eqn:Ekey.
    + apply bool_decide_eq_true in Ekey.
      apply Forall_cons in Hlow as [Hnow _].
      apply Forall_cons in Hup as [Hnowf Hup].
      apply StronglySorted_inv in Hsorted as [Hsorted Hlater].
      destruct (snd (check limiter request now)) eqn:Eok; cbn [andb].
      * destruct (admission_step opts key limiter request now bound history
                    Hopts Ekey Hnow Hcov Eok) as [_ Hcov1].
        rewrite List.rev_app_distr. cbn [rev app]. rewrite <- List.app_assoc.
        cbn [app]. now apply (IH _ (now :: history) now).
      * cbn [app]. apply (IH _ history now); auto.
        intros x Hx. pose proof (check_stored_key limiter request now) as Hst.
        rewrite Eok, Hopts, Ekey in Hst. rewrite Hst. apply Hcov. lia.
    + apply bool_decide_eq_false in Ekey.
      rewrite andb_false_r. cbn [app].
      apply (IH _ history bound); auto.
      intros x Hx. rewrite check_stored_other.
      * now apply Hcov.
      * rewrite Hopts. congruence.
Qed.

Lemma validRequests_rev_length (x : Z) (l : list Z) :
  length (validRequests x (rev l)) = length (validRequests x l).
Proof. unfold validRequests. now rewrite List.filter_rev, List.length_rev. Qed.

(** The stored sequence counts exactly the admissions still in the window
    of a call made now, when the key's clock readings have not gone
    backwards. *)
Lemma stored_counts_admissions (opts : RateLimitOptions)
  (calls : list (Request * Z)) (key : string) (now : Z) :
  StronglySorted Z.le (keyTimes opts key calls) ->
  Forall (fun t => t <= now) (keyTimes opts key calls) ->
  length (validRequests (now - windowMs opts) (stored (reached opts calls) key))
  = length (validRequests (now - windowMs opts)
              (admittedTimes (fresh opts) calls key)).
Proof.
  intros Hsorted Hup. apply Nat.le_antisymm.
  - apply sublist_validRequests_length, reached_stored_sublist.
  - destruct (lower_bound_exists (now :: keyTimes opts key calls)) as [b Hb].
    apply Forall_cons in Hb as [Hbn Hb].
    pose proof (run_covers opts key now calls (fresh opts) [] b eq_refl) as Hc.
    rewrite List.app_nil_r in Hc.
    rewrite <- validRequests_rev_length.
    apply Hc; auto; try lia.
    intros x _. simpl. lia.
Qed.

Lemma check_reached_exact (opts : RateLimitOptions)
  (calls : list (Request * Z)) (request : Request) (now : Z) :
  StronglySorted Z.le (keyTimes opts (clientKey opts request) calls) ->
  Forall (fun t => t <= now) (keyTimes opts (clientKey opts request) calls) ->
  snd (check (reached opts calls) request now)
  = (Z.of_nat (length (validRequests (now - windowMs opts)
                         (admittedTimes (fresh opts) calls
                            (clientKey opts request))))
     <? maxRequests opts).
Proof.
  intros Hsorted Hup.
  rewrite check_result, reached_options.
  rewrite (stored_counts_admissions opts calls _ now Hsorted Hup).
  rewrite Z.geb_leb. symmetry. apply Z.ltb_antisym.
Qed.

(** X3.  A call is admitted exactly when fewer than [maxRequests] admitted calls
    of its key have a timestamp later than [now - windowMs], provided the
    key's clock readings, this one included, have not gone backwards. *)
Theorem admitted_iff_window_has_room (opts : RateLimitOptions)
  (calls : list (Request * Z)) (request : Request) (now : Z) :
  StronglySorted Z.le (keyTimes opts (clientKey opts request) calls) ->
  Forall (fun t => t <= now) (keyTimes opts (clientKey opts request) calls) ->
  snd (check (reached opts calls) request now)
  = (Z.of_nat (length (validRequests (now - windowMs opts)
                         (admittedTimes (fresh opts) calls
                            (clientKey opts request))))
     <? maxRequests opts).
Proof.
  intros Hsorted Hup.
  pose proof (stored_counts_admissions opts calls _ now Hsorted Hup) as Hcount.
  rewrite check_result, reached_options, Hcount.
  rewrite Z.geb_leb. symmetry. apply Z.ltb_antisym.
Qed.

Lemma admitted_iff_window_has_room_witness :
  snd (check (reached scenarioOptions (firstn 3 scenarioCalls))
         (requestFrom "k") 900) = false.
Proof.
  rewrite (admitted_iff_window_has_room scenarioOptions
             (firstn 3 scenarioCalls) (requestFrom "k") 900).
  - vm_compute. reflexivity.
  - vm_compute. repeat constructor; discriminate.
  - vm_compute. repeat constructor; discriminate.
Defined.

(** X4.  A client is not locked out for good: once every admitted call of its
    key is at least [windowMs] old and the budget is positive, the next
    call is admitted, whatever the order of the earlier clock readings. *)
Theorem admitted_after_full_window (opts : RateLimitOptions)
  (calls : list (Request * Z)) (request : Request) (now : Z) :
  0 < maxRequests opts ->
  Forall (fun t => t + windowMs opts <= now)
    (admittedTimes (fresh opts) calls (clientKey opts request)) ->
  snd (check (reached opts calls) request now) = true.
Proof.
  intros Hm Hold. rewrite check_result, reached_options.
  apply negb_true_iff. rewrite Z.geb_leb. apply Z.leb_gt.
  replace (validRequests _ _) with (@nil Z); [simpl; lia|].
  symmetry. apply List.length_zero_iff_nil.
  apply Nat.le_antisymm; [|lia].
  etransitivity;
    [apply sublist_validRequests_length, reached_stored_sublist|].
  clear Hm. induction Hold as [|t l Ht _ IH]; [simpl; lia|].
  unfold validRequests in *. simpl.
  replace (t >? now - windowMs opts) with false; [exact IH|].
  symmetry. rewrite Z.gtb_ltb. apply Z.ltb_ge. lia.
Qed.

Lemma admitted_after_full_window_witness :
  snd (check (reached scenarioOptions scenarioCalls) (requestFrom "k") 2001)
  = true.
Proof.
  apply (admitted_after_full_window scenarioOptions scenarioCalls
           (requestFrom "k") 2001).
  - simpl. lia.
  - vm_compute. repeat constructor; discriminate.
Defined.

(** ** Denied calls leave no trace *)

Lemma check_sameStored l1 l2 request now :
  sameStored l1 l2 ->
  snd (check l1 request now) = snd (check l2 request now)
  /\ sameStored (fst (check l1 request now)) (fst (check l2 request now)).
Proof.
  intros [Ho Hst].
  assert (Hres : snd (check l1 request now) = snd (check l2 request now)).
  { rewrite !check_result. now rewrite Ho, Hst. }
  split; [exact Hres|]. split.
  - now rewrite !check_options.
  - intros k.
    destruct (decide (k = clientKey (options l1) request)) as [->|Hne].
    + rewrite check_stored_key, Ho.
      rewrite (check_stored_key l2 request now).
      now rewrite Hres, Hst.
    + rewrite !check_stored_other; [apply Hst| |]; congruence.
Qed.

Lemma run_sameStored calls : forall l1 l2,
  sameStored l1 l2 -> snd (run l1 calls) = snd (run l2 calls).
Proof.
  induction calls as [|[request now] rest IH]; intros l1 l2 Hsame.
  - reflexivity.
  - rewrite !run_cons. cbn [snd].
    destruct (check_sameStored l1 l2 request now Hsame) as [Hres Hsame1].
    rewrite Hres. f_equal. now apply IH.
Qed.

Lemma denied_sameStored limiter request now :
  snd (check limiter request now) = false ->
  sameStored (fst (check limiter request now)) limiter.
Proof.
  intros Hden. split; [apply check_options|]. intros k.
  destruct (decide (k = clientKey (options limiter) request)) as [->|Hne].
  - rewrite check_stored_key. now rewrite Hden.
  - now apply check_stored_other.
Qed.

(** X5.  A denied call consumes nothing: it changes no stored sequence, and
    every later call is answered as if the denied call had not been made. *)
Theorem denied_call_leaves_no_trace (limiter : RateLimit) (request : Request)
  (now : Z) :
  snd (check limiter request now) = false ->
  (forall key, stored (fst (check limiter request now)) key = stored limiter key)
  /\ (forall later, snd (run (fst (check limiter request now)) later)
                    = snd (run limiter later)).
Proof.
  intros Hden. pose proof (denied_sameStored limiter request now Hden) as Hs.
  split; [apply Hs|]. intros later. now apply run_sameStored.
Qed.

Lemma denied_call_leaves_no_trace_witness :
  snd (run (reached scenarioOptions (firstn 4 scenarioCalls))
         [(requestFrom "k", 1001)])
  = snd (run (reached scenarioOptions (firstn 3 scenarioCalls))
           [(requestFrom "k", 1001)]).
Proof.
  refine (proj2 (denied_call_leaves_no_trace
                   (reached scenarioOptions (firstn 3 scenarioCalls))
                   (requestFrom "k") 900 _) [(requestFrom "k", 1001)]).
  vm_compute. reflexivity.
Defined.

(** ** Keys are never forgotten *)

Lemma ensureKey_dom (key : string) (m : gmap string (list Z)) :
  dom (ensureKey key m) = {[ key ]} ∪ dom m.
Proof.
  unfold ensureKey. destruct (m !! key) as [l|] eqn:E.
  - assert (key ∈ dom m) by (apply elem_of_dom; eauto). set_solver.
  - apply dom_insert_L.
Qed.

Lemma check_dom limiter request now :
  dom (requests (fst (check limiter request now)))
  = {[ clientKey (options limiter) request ]} ∪ dom (requests limiter).
Proof.
  unfold check. destruct (_ >=? _); simpl.
  - apply ensureKey_dom.
  - rewrite dom_insert_L, ensureKey_dom. set_solver.
Qed.

Lemma run_dom (opts : RateLimitOptions) calls : forall limiter,
  options limiter = opts ->
  dom (requests (fst (run limiter calls)))
  = list_to_set (map (fun c => clientKey opts (fst c)) calls)
    ∪ dom (requests limiter).
Proof.
  induction calls as [|[request now] rest IH]; intros limiter Ho.
  - simpl. set_solver.
  - rewrite run_cons. cbn [fst map list_to_set].
    rewrite IH by (now rewrite check_options).
    rewrite check_dom, Ho. set_solver.
Qed.

(** X6.  The map holds one entry for every client key a call was ever made
    for, admitted or denied, and no other: no [check] removes an entry. *)
Theorem keys_accumulate (opts : RateLimitOptions) (calls : list (Request * Z)) :
  dom (requests (reached opts calls))
  = list_to_set (map (fun c => clientKey opts (fst c)) calls).
Proof.
  unfold reached. rewrite (run_dom opts) by reflexivity.
  simpl. rewrite dom_empty_L. set_solver.
Qed.

(** ** The login route *)

Lemma login_action_check limiter request now :
  login_action limiter request now
  = (fst (check limiter request now),
     loginOutcome (snd (check limiter request now))).
Proof.
  unfold login_action. now destruct (check limiter request now) as [l1 []].
Qed.

Lemma login_run_run calls : forall limiter,
  login_run limiter calls
  = (fst (run limiter calls), map loginOutcome (snd (run limiter calls))).
Proof.
  induction calls as [|[request now] rest IH]; intros limiter.
  - reflexivity.
  - cbn [login_run]. rewrite login_action_check, IH, run_cons. reflexivity.
Qed.

(** X7.  The login action answers 429 exactly when five logins of the same
    client were let through during the last fifteen minutes (clock
    readings of that client not going backwards); otherwise the login is
    processed. *)
Theorem login_throttled (calls : list (Request * Z)) (request : Request)
  (now : Z) :
  StronglySorted Z.le (keyTimes (options loginRateLimit) (getIP request) calls) ->
  Forall (fun t => t <= now)
    (keyTimes (options loginRateLimit) (getIP request) calls) ->
  snd (login_run loginRateLimit calls)
  = map loginOutcome (snd (run loginRateLimit calls))
  /\ snd (login_action (fst (login_run loginRateLimit calls)) request now)
     = if Z.of_nat (length (validRequests (now - 900000)
                              (admittedTimes loginRateLimit calls
                                 (getIP request)))) <? 5
       then ProcessLogin
       else Thrown "Too many login attempts, please try again later" 429.
Proof.
  intros Hsorted Hup. rewrite login_run_run. split; [reflexivity|].
  rewrite login_action_check. cbn [fst snd].
  change (fst (run loginRateLimit calls))
    with (reached (options loginRateLimit) calls).
  rewrite (check_reached_exact (options loginRateLimit) calls
             request now Hsorted Hup).
  reflexivity.
Qed.

Lemma login_throttled_witness :
  snd (login_action
         (fst (login_run loginRateLimit
                 (map (fun t => (requestFrom "k", t)) [0; 1; 2; 3; 4])))
         (requestFrom "k") 899999)
  = Thrown "Too many login attempts, please try again later" 429.
Proof.
  assert (Htimes :
    keyTimes (options loginRateLimit) (getIP (requestFrom "k"))
      (map (fun t => (requestFrom "k", t)) [0; 1; 2; 3; 4])
    = [0; 1; 2; 3; 4]) by (vm_compute; reflexivity).
  destruct (login_throttled
              (map (fun t => (requestFrom "k", t)) [0; 1; 2; 3; 4])
              (requestFrom "k") 899999) as [_ Hlast].
  - rewrite Htimes. repeat constructor; lia.
  - rewrite Htimes. repeat constructor; lia.
  - rewrite Hlast. vm_compute. reflexivity.
Defined.

(** ** The client cache *)

Section ClientCacheFacts.

Context {A : Type}.
Implicit Types (cache : gmap string (ClientCache.Entry A)) (key : string).

(** X8.  A value that was set is read back until its time to live has passed,
    and not from then on: [get] answers the value while
    [now < setTime + ttl] (five minutes when no [ttl] is given) and [null]
    afterwards. *)
Theorem cache_set_then_get (hasDB hasDB' : bool) cache key (d : A)
  (ttl : option Z) (setTime now : Z) :
  snd (ClientCache.get hasDB'
         (ClientCache.set hasDB cache key d ttl setTime) key now)
  = if now <? setTime + default 300000 ttl then Some d else None.
Proof.
  unfold ClientCache.get, ClientCache.set, ClientCache.getFromIndexedDB.
  rewrite lookup_insert_eq. cbn [ClientCache.expiry ClientCache.data].
  change (5 * 60 * 1000) with 300000.
  destruct (now <? _); [reflexivity|]. now destruct hasDB'.
Qed.

Lemma cache_get_after_set (hasDB hasDB' : bool) cache key (d : A)
  (ttl : option Z) (setTime now : Z) :
  ClientCache.get hasDB'
    (ClientCache.set hasDB cache key d ttl setTime) key now
  = if now <? setTime + default 300000 ttl
    then (ClientCache.set hasDB cache key d ttl setTime, Some d)
    else (delete key (ClientCache.set hasDB cache key d ttl setTime), None).
Proof.
  unfold ClientCache.get, ClientCache.set, ClientCache.getFromIndexedDB.
  rewrite lookup_insert_eq. cbn [ClientCache.expiry ClientCache.data].
  change (5 * 60 * 1000) with 300000.
  destruct (now <? _); [reflexivity|]. now destruct hasDB'.
Qed.

Lemma cache_get_miss_lookup (hasDB : bool) cache key (now : Z) :
  snd (ClientCache.get hasDB cache key now) = None ->
  fst (ClientCache.get hasDB cache key now) !! key = None.
Proof.
  unfold ClientCache.get.
  destruct (cache !! key) as [entry|] eqn:E; [|intros _; exact E].
  destruct (now <? ClientCache.expiry entry); [discriminate|].
  intros _. apply lookup_delete_eq.
Qed.

(** X9.  An entry found expired is removed by the read itself: once [get] has
    answered [null] for a key, it answers [null] for that key at every
    clock reading, earlier ones included, until the key is set again. *)
Theorem cache_miss_is_final (hasDB hasDB' : bool) cache key (now later : Z) :
  snd (ClientCache.get hasDB cache key now) = None ->
  snd (ClientCache.get hasDB'
         (fst (ClientCache.get hasDB cache key now)) key later) = None.
Proof.
  intros Hmiss. apply (cache_get_miss_lookup hasDB) in Hmiss.
  unfold ClientCache.get at 1. rewrite Hmiss.
  unfold ClientCache.getFromIndexedDB. now destruct hasDB'.
Qed.

Lemma cache_get_lookup_ne (hasDB : bool) cache key key' (now : Z) :
  key' <> key ->
  fst (ClientCache.get hasDB cache key now) !! key' = cache !! key'.
Proof.
  intros Hne. unfold ClientCache.get.
  destruct (cache !! key) as [entry|]; [|reflexivity].
  destruct (now <? ClientCache.expiry entry); [reflexivity|].
  now apply lookup_delete_ne.
Qed.

Lemma cache_get_congruent (hasDB : bool) cache cache' key (now : Z) :
  cache !! key = cache' !! key ->
  snd (ClientCache.get hasDB cache key now)
  = snd (ClientCache.get hasDB cache' key now).
Proof.
  intros Heq. unfold ClientCache.get. rewrite Heq.
  destruct (cache' !! key) as [entry|]; [|reflexivity].
  now destruct (now <? ClientCache.expiry entry).
Qed.

(** X10.  Setting or reading one key never changes what a read of another key
    answers. *)
Theorem cache_keys_independent (hasDB : bool) cache key key' (d : A)
  (ttl : option Z) (t now : Z) :
  key' <> key ->
  snd (ClientCache.get hasDB
         (ClientCache.set hasDB cache key d ttl t) key' now)
  = snd (ClientCache.get hasDB cache key' now)
  /\ snd (ClientCache.get hasDB
            (fst (ClientCache.get hasDB cache key t)) key' now)
     = snd (ClientCache.get hasDB cache key' now).
Proof.
  intros Hne. split; apply cache_get_congruent.
  - unfold ClientCache.set. apply lookup_insert_ne. congruence.
  - now apply cache_get_lookup_ne.
Qed.

Variable truthyData : A -> bool.

(** X11.  Whatever [clientLoader] returns without calling the API is truthy: a
    cached value that is falsy is fetched again on every load. *)
Theorem clientLoader_serves_truthy_only (hasDB : bool) cache (id : string)
  (fetched : A) (tGet tSet : Z) :
  snd (ClientCache.clientLoader truthyData hasDB cache id fetched tGet tSet)
  = false ->
  truthyData
    (snd (fst (ClientCache.clientLoader truthyData hasDB cache id fetched
                 tGet tSet))) = true.
Proof.
  unfold ClientCache.clientLoader.
  destruct (ClientCache.get hasDB cache ("product-" +:+ id) tGet)
    as [cache1 [product|]]; [|discriminate].
  destruct (truthyData product) eqn:Et; [|discriminate].
  intros _. exact Et.
Qed.

(** X12.  After a load that called the API and got a truthy product, a second
    load of the same product calls the API again exactly when five minutes
    or more have passed since the first one stored its result; before
    that it returns the stored product and leaves the cache as it is. *)
Theorem clientLoader_reuses_for_five_minutes (hasDB : bool) cache
  (id : string) (fetched fetched2 : A) (tGet tSet tGet2 tSet2 : Z) :
  snd (ClientCache.clientLoader truthyData hasDB cache id fetched tGet tSet)
  = true ->
  truthyData fetched = true ->
  ClientCache.clientLoader truthyData hasDB
    (fst (fst (ClientCache.clientLoader truthyData hasDB cache id fetched
                 tGet tSet)))
    id fetched2 tGet2 tSet2
  = if tGet2 <? tSet + 300000 then
      (fst (fst (ClientCache.clientLoader truthyData hasDB cache id fetched
                   tGet tSet)), fetched, false)
    else
      (ClientCache.set hasDB
         (fst (ClientCache.get hasDB
                 (fst (fst (ClientCache.clientLoader truthyData hasDB cache
                              id fetched tGet tSet)))
                 ("product-" +:+ id) tGet2))
         ("product-" +:+ id) fetched2 None tSet2,
       fetched2, true).
Proof.
  intros Hapi Htruthy.
  assert (Hfirst :
    fst (fst (ClientCache.clientLoader truthyData hasDB cache id fetched
                tGet tSet))
    = ClientCache.set hasDB
        (fst (ClientCache.get hasDB cache ("product-" +:+ id) tGet))
        ("product-" +:+ id) fetched None tSet).
  { revert Hapi. unfold ClientCache.clientLoader.
    destruct (ClientCache.get hasDB cache ("product-" +:+ id) tGet)
      as [cache1 [product|]]; [|reflexivity].
    destruct (truthyData product); [discriminate|reflexivity]. }
  rewrite Hfirst. clear Hfirst Hapi.
  unfold ClientCache.clientLoader at 1.
  rewrite !cache_get_after_set. cbn [default].
  destruct (tGet2 <? tSet + 300000); cbn [fst]; [|reflexivity].
  now rewrite Htruthy.
Qed.

End ClientCacheFacts.

Lemma cache_miss_is_final_witness :
  snd (ClientCache.get false
         (fst (ClientCache.get false
                 (ClientCache.set false ∅ "product-7" "lamp" None 0)
                 "product-7" 300000))
         "product-7" 5) = None.
Proof.
  apply (cache_miss_is_final false false
           (ClientCache.set false ∅ "product-7" "lamp" None 0)
           "product-7" 300000 5).
  vm_compute. reflexivity.
Defined.

Lemma cache_keys_independent_witness :
  snd (ClientCache.get false
         (ClientCache.set false
            (ClientCache.set false ∅ "product-7" "lamp" None 0)
            "product-8" "desk" (Some 10) 50)
         "product-7" 100) = Some "lamp".
Proof.
  rewrite (proj1 (cache_keys_independent false
                    (ClientCache.set false ∅ "product-7" "lamp" None 0)
                    "product-8" "product-7" "desk" (Some 10) 50 100
                    ltac:(discriminate))).
  vm_compute. reflexivity.
Defined.

Lemma clientLoader_serves_truthy_only_witness :
  truthy
    (snd (fst (ClientCache.clientLoader truthy false
                 (ClientCache.set false ∅ "product-7" "lamp" None 0)
                 "7" "desk" 100 101))) = true.
Proof.
  apply (clientLoader_serves_truthy_only truthy false
           (ClientCache.set false ∅ "product-7" "lamp" None 0)
           "7" "desk" 100 101).
  vm_compute. reflexivity.
Defined.

Lemma clientLoader_reuses_for_five_minutes_witness :
  ClientCache.clientLoader truthy false
    (fst (fst (ClientCache.clientLoader truthy false ∅ "7" "lamp" 0 10)))
    "7" "desk" 300009 300020
  = (fst (fst (ClientCache.clientLoader truthy false ∅ "7" "lamp" 0 10)),
     "lamp", false).
Proof.
  rewrite (clientLoader_reuses_for_five_minutes truthy false ∅ "7"
             "lamp" "desk" 0 10 300009 300020).
  - reflexivity.
  - vm_compute. reflexivity.
  - reflexivity.
Defined.

(** ** The WebSocket listeners *)

Section ListenerFacts.

Import WebSocketManager.

Context {D : Type}.
Implicit Types (listeners : gmap string (list nat)) (type : string).

Lemma onmessage_callbacks listeners type (data : D) :
  map fst (onmessage listeners type data) = listenersOf listeners type.
Proof.
  unfold onmessage, listenersOf. destruct (listeners !! type) as [s|]; simpl.
  - induction s as [|c s IH]; simpl; [reflexivity|]. now rewrite IH.
  - reflexivity.
Qed.

Lemma onmessage_listeners listeners type (data : D) :
  onmessage listeners type data
  = map (fun listener => (listener, data)) (listenersOf listeners type).
Proof.
  unfold onmessage, listenersOf. now destruct (listeners !! type).
Qed.

Lemma subscribe_lookup listeners type callback type' :
  subscribe listeners type callback !! type'
  = if decide (type' = type)
    then Some (Set_add callback (listenersOf listeners type))
    else listeners !! type'.
Proof.
  unfold listenersOf, subscribe.
  destruct (decide (type' = type)) as [->|Hne].
  - rewrite lookup_insert_eq. f_equal. f_equal.
    destruct (listeners !! type) eqn:E; [now rewrite E|].
    now rewrite lookup_insert_eq.
  - rewrite lookup_insert_ne by congruence.
    destruct (listeners !! type); [reflexivity|].
    now rewrite lookup_insert_ne by congruence.
Qed.

Lemma subscribe_listeners listeners type callback type' :
  listenersOf (subscribe listeners type callback) type'
  = if decide (type' = type)
    then Set_add callback (listenersOf listeners type)
    else listenersOf listeners type'.
Proof.
  unfold listenersOf, subscribe.
  destruct (decide (type' = type)) as [->|Hne].
  - rewrite lookup_insert_eq. simpl.
    destruct (listeners !! type) eqn:E; [now rewrite E|].
    now rewrite lookup_insert_eq.
  - rewrite lookup_insert_ne by congruence.
    destruct (listeners !! type); [reflexivity|].
    now rewrite lookup_insert_ne by congruence.
Qed.

Lemma unsubscribe_listeners listeners type callback type' :
  listenersOf (unsubscribe listeners type callback) type'
  = if decide (type' = type)
    then Set_delete callback (listenersOf listeners type)
    else listenersOf listeners type'.
Proof.
  unfold listenersOf, unsubscribe.
  destruct (decide (type' = type)) as [->|Hne].
  - destruct (listeners !! type) eqn:E.
    + now rewrite lookup_insert_eq.
    + now rewrite E.
  - destruct (listeners !! type); [|reflexivity].
    now rewrite lookup_insert_ne by congruence.
Qed.

Lemma Set_add_NoDup callback (s : list nat) :
  List.NoDup s -> List.NoDup (Set_add callback s).
Proof.
  intros Hs. unfold Set_add. case_bool_decide as Hin; [exact Hs|].
  apply List.NoDup_app; repeat split; [exact Hs|repeat constructor; simpl; tauto|].
  intros c Hc [<-|[]]. apply Hin. now apply list_elem_of_In.
Qed.

Lemma Set_add_In callback (s : list nat) : In callback (Set_add callback s).
Proof.
  unfold Set_add. case_bool_decide as Hin.
  - now apply list_elem_of_In.
  - apply List.in_or_app. right. now left.
Qed.

Lemma Set_delete_In callback c (s : list nat) :
  In c (Set_delete callback s) <-> In c s /\ c <> callback.
Proof.
  unfold Set_delete. rewrite List.filter_In, negb_true_iff, Nat.eqb_neq.
  reflexivity.
Qed.

Lemma Set_delete_absent callback (s : list nat) :
  ~ In callback s -> Set_delete callback s = s.
Proof.
  unfold Set_delete. induction s as [|c s IH]; simpl; [reflexivity|].
  intros Hnin. destruct (Nat.eqb_spec c callback) as [->|Hne]; simpl.
  - exfalso. apply Hnin. now left.
  - f_equal. apply IH. tauto.
Qed.

Lemma step_NoDup listeners op :
  (forall type, List.NoDup (listenersOf listeners type)) ->
  forall type, List.NoDup (listenersOf (step listeners op) type).
Proof.
  intros Hwf type. destruct op as [t c|t c]; simpl.
  - rewrite subscribe_listeners. destruct (decide _); [|apply Hwf].
    apply Set_add_NoDup, Hwf.
  - rewrite unsubscribe_listeners. destruct (decide _); [|apply Hwf].
    apply List.NoDup_filter, Hwf.
Qed.

Lemma after_NoDup ops : forall listeners,
  (forall type, List.NoDup (listenersOf listeners type)) ->
  forall type, List.NoDup (listenersOf (fold_left step ops listeners) type).
Proof.
  induction ops as [|op ops IH]; intros listeners Hwf; simpl.
  - exact Hwf.
  - apply IH. now apply step_NoDup.
Qed.

(** X13.  However often and in whatever order callbacks were subscribed and
    unsubscribed before, a callback that has just been subscribed to a
    type is called exactly once for a message of that type. *)
Theorem subscribed_called_exactly_once (ops : list Op) type (callback : nat)
  (data : D) :
  count_occ Nat.eq_dec
    (map fst (onmessage (subscribe (after ops) type callback) type data))
    callback = 1%nat.
Proof.
  rewrite onmessage_callbacks.
  apply List.NoDup_count_occ'.
  - apply (step_NoDup (after ops) (Subscribe type callback)).
    apply after_NoDup. intros t. unfold listenersOf.
    rewrite lookup_empty. constructor.
  - rewrite subscribe_listeners. rewrite decide_True by reflexivity.
    apply Set_add_In.
Qed.

(** X14.  Calling the function returned by [subscribe] removes the calls of that
    callback for that type and nothing else: the other calls for the type
    stay, in the same order, and the calls for every other type are
    unchanged. *)
Theorem unsubscribe_removes_only_its_callback listeners type
  (callback : nat) type' (data : D) :
  onmessage (unsubscribe listeners type callback) type' data
  = if decide (type' = type)
    then List.filter (fun call => negb (Nat.eqb (fst call) callback))
           (onmessage listeners type data)
    else onmessage listeners type' data.
Proof.
  rewrite !onmessage_listeners, unsubscribe_listeners.
  destruct (decide (type' = type)) as [->|Hne]; [|reflexivity].
  unfold Set_delete.
  induction (listenersOf listeners type) as [|c s IH]; simpl; [reflexivity|].
  destruct (Nat.eqb c callback); simpl; now rewrite IH.
Qed.

(** X15.  Subscribing a callback that is already subscribed to the type changes
    nothing, so one call of either returned function cancels both
    subscriptions: the callback is no longer called. *)
Theorem double_subscription_cancelled_at_once listeners type
  (callback : nat) (data : D) :
  subscribe (subscribe listeners type callback) type callback
  = subscribe listeners type callback
  /\ ~ In callback
         (map fst
            (onmessage
               (unsubscribe
                  (subscribe (subscribe listeners type callback) type callback)
                  type callback)
               type data)).
Proof.
  split.
  - apply map_eq. intros t. rewrite !subscribe_lookup.
    destruct (decide (t = type)) as [->|Hne]; [|reflexivity].
    f_equal. rewrite subscribe_listeners, decide_True by reflexivity.
    unfold Set_add at 1. rewrite bool_decide_eq_true_2; [reflexivity|].
    apply list_elem_of_In, Set_add_In.
  - rewrite onmessage_callbacks.
    rewrite unsubscribe_listeners, decide_True by reflexivity.
    rewrite Set_delete_In. tauto.
Qed.

(** X16.  Subscribing a callback that was not subscribed to the type and then
    calling the returned function leaves the calls made for every message
    as they were before. *)
Theorem subscribe_then_unsubscribe listeners type (callback : nat)
  type' (data : D) :
  ~ In callback (listenersOf listeners type) ->
  onmessage (unsubscribe (subscribe listeners type callback) type callback)
    type' data
  = onmessage listeners type' data.
Proof.
  intros Hnew. rewrite !onmessage_listeners. f_equal.
  rewrite unsubscribe_listeners, !subscribe_listeners.
  destruct (decide (type' = type)) as [->|Hne]; [|reflexivity].
  rewrite decide_True by reflexivity.
  unfold Set_add. rewrite bool_decide_eq_false_2
    by (intros Hin; apply Hnew; now apply list_elem_of_In).
  unfold Set_delete. rewrite List.filter_app. simpl.
  rewrite Nat.eqb_refl. simpl. rewrite List.app_nil_r.
  now apply Set_delete_absent.
Qed.

(** X17.  Subscribing adds at most one call, at the end, for messages of its
    type (none when the callback was subscribed already), and changes no
    call for any other type. *)
Theorem subscribe_appends_one_call listeners type (callback : nat)
  type' (data : D) :
  onmessage (subscribe listeners type callback) type' data
  = if decide (type' = type)
    then onmessage listeners type data
         ++ (if bool_decide (callback ∈ listenersOf listeners type)
             then [] else [(callback, data)])
    else onmessage listeners type' data.
Proof.
  rewrite !onmessage_listeners, subscribe_listeners.
  destruct (decide (type' = type)) as [->|Hne]; [|reflexivity].
  unfold Set_add. case_bool_decide.
  - now rewrite List.app_nil_r.
  - now rewrite List.map_app.
Qed.

End ListenerFacts.

Lemma subscribe_then_unsubscribe_witness :
  WebSocketManager.onmessage
    (WebSocketManager.unsubscribe
       (WebSocketManager.subscribe
          (WebSocketManager.after [WebSocketManager.Subscribe "new_message" 1])
          "new_message" 2)
       "new_message" 2)
    "new_message" "hello"
  = [(1%nat, "hello")].
Proof.
  rewrite (subscribe_then_unsubscribe
             (WebSocketManager.after [WebSocketManager.Subscribe "new_message" 1])
             "new_message" 2 "new_message" "hello").
  - vm_compute. reflexivity.
  - vm_compute. intros [H|[]]. discriminate.
Defined.

(** ** CSRF tokens *)

(** X18.  A token that was just generated, and only that one, passes
    validation against the session it was stored in: any other submitted
    value, a missing form field and a token of an earlier generation
    included, is answered with status 403. *)
Theorem csrf_only_latest_token_valid (session : gmap string string)
  (uuid : string) (submitted : option string) :
  uuid <> "" ->
  Csrf.validateCSRFToken (snd (Csrf.generateCSRFToken session uuid)) submitted
  = if bool_decide (submitted = Some (fst (Csrf.generateCSRFToken session uuid)))
    then Return tt
    else Throw "Invalid CSRF token" 403.
Proof.
  intros Huuid. unfold Csrf.validateCSRFToken, Csrf.generateCSRFToken.
  cbn [fst snd]. rewrite lookup_insert_eq.
  apply truthy_nonempty in Huuid. rewrite Huuid. cbn [negb orb].
  repeat case_bool_decide; simpl; congruence.
Qed.

Lemma csrf_only_latest_token_valid_witness :
  Csrf.validateCSRFToken
    (snd (Csrf.generateCSRFToken
            (snd (Csrf.generateCSRFToken ∅ "first-token")) "second-token"))
    (Some "first-token")
  = Throw "Invalid CSRF token" 403.
Proof.
  rewrite (csrf_only_latest_token_valid
             (snd (Csrf.generateCSRFToken ∅ "first-token")) "second-token"
             (Some "first-token")).
  - vm_compute. reflexivity.
  - discriminate.
Defined.

(** X19.  A session without a token, or with an empty one, validates nothing:
    whatever is submitted, the empty string included, the answer is 403. *)
Theorem csrf_blank_session_rejects_all (session : gmap string string)
  (submitted : option string) :
  session !! "csrfToken" = None \/ session !! "csrfToken" = Some "" ->
  Csrf.validateCSRFToken session submitted = Throw "Invalid CSRF token" 403.
Proof.
  unfold Csrf.validateCSRFToken. now intros [-> | ->].
Qed.

Lemma csrf_blank_session_rejects_all_witness :
  Csrf.validateCSRFToken {[ "csrfToken" := "" ]} (Some "")
  = Throw "Invalid CSRF token" 403.
Proof.
  apply (csrf_blank_session_rejects_all {[ "csrfToken" := "" ]} (Some "")).
  right. vm_compute. reflexivity.
Defined.

(** ** Conditional requests *)

Lemma append_cons (c : ascii) (a q : string) :
  String c a +:+ q = String c (a +:+ q).
Proof. reflexivity. Qed.

Lemma append_nil (q : string) : "" +:+ q = q.
Proof. reflexivity. Qed.

Lemma append_length (a q : string) :
  String.length (a +:+ q) = (String.length a + String.length q)%nat.
Proof.
  induction a as [|c a IH]; [reflexivity|].
  rewrite append_cons. simpl. now rewrite IH.
Qed.

Lemma append_cancel_r (a b q : string) : a +:+ q = b +:+ q -> a = b.
Proof.
  revert b. induction a as [|c a IH]; intros [|c' b] Heq.
  - reflexivity.
  - apply (f_equal String.length) in Heq.
    rewrite append_nil, append_cons in Heq. simpl in Heq.
    rewrite append_length in Heq. lia.
  - apply (f_equal String.length) in Heq.
    rewrite append_nil, append_cons in Heq. simpl in Heq.
    rewrite append_length in Heq. lia.
  - rewrite !append_cons in Heq. injection Heq as -> Heq.
    f_equal. now apply IH.
Qed.

Lemma etagOf_inj (p p' : ProductApi.Product) :
  ProductApi.etagOf p = ProductApi.etagOf p' <->
  ProductApi.updatedAt p = ProductApi.updatedAt p'.
Proof.
  unfold ProductApi.etagOf. split.
  - intros Heq. injection Heq as Heq.
    apply append_cancel_r in Heq. now apply (inj pretty) in Heq.
  - now intros ->.
Qed.

(** X20.  Revalidation.  A client that sends back, as [If-None-Match], the
    [ETag] it got from an unconditional request is answered 304 without a
    body exactly when the stored product still has the same [updatedAt];
    otherwise it gets the current product with its new [ETag].  A change
    that leaves [updatedAt] alone is therefore not seen. *)
Theorem etag_revalidation (db db' : gmap string ProductApi.Product)
  (paramsId : string) (p p' : ProductApi.Product) :
  db !! paramsId = Some p ->
  db' !! paramsId = Some p' ->
  ProductApi.loader db'
    (ProductApi.etagHeader (ProductApi.loader db None paramsId)) paramsId
  = if bool_decide (ProductApi.updatedAt p' = ProductApi.updatedAt p)
    then Return (ProductApi.mkResponse None 304 [])
    else Return (ProductApi.mkResponse (Some p') 200
                   [("Cache-Control", "public, max-age=3600");
                    ("ETag", ProductApi.etagOf p')]).
Proof.
  intros Hp Hp'. unfold ProductApi.loader. rewrite Hp, Hp'.
  rewrite (bool_decide_eq_false_2 (None = Some (ProductApi.etagOf p)))
    by discriminate.
  cbn [ProductApi.etagHeader ProductApi.responseHeaders List.find fst snd
       String.eqb Ascii.eqb Bool.eqb fmap option_fmap option_map].
  repeat case_bool_decide; try reflexivity.
  - exfalso. match goal with H : _ <> _ |- _ => apply H end.
    apply etagOf_inj. congruence.
  - exfalso. match goal with H : _ <> _ |- _ => apply H end.
    f_equal. now apply etagOf_inj.
Qed.

Lemma etag_revalidation_witness :
  ProductApi.loader
    {[ "7" := ProductApi.mkProduct "7" 1700000000000 "price 12" ]}
    (ProductApi.etagHeader
       (ProductApi.loader
          {[ "7" := ProductApi.mkProduct "7" 1700000000000 "price 10" ]}
          None "7"))
    "7"
  = Return (ProductApi.mkResponse None 304 []).
Proof.
  rewrite (etag_revalidation
             {[ "7" := ProductApi.mkProduct "7" 1700000000000 "price 10" ]}
             {[ "7" := ProductApi.mkProduct "7" 1700000000000 "price 12" ]}
             "7"
             (ProductApi.mkProduct "7" 1700000000000 "price 10")
             (ProductApi.mkProduct "7" 1700000000000 "price 12")).
  - reflexivity.
  - apply lookup_singleton_eq.
  - apply lookup_singleton_eq.
Defined.

(** ** A budget of zero or less *)

(** X21.  With [maxRequests] zero or negative every call is denied, whatever the
    state of the limiter, the request and the time. *)
Theorem zero_budget_denies_all (limiter : RateLimit)
  (calls : list (Request * Z)) :
  maxRequests (options limiter) <= 0 ->
  Forall (fun ok => ok = false) (snd (run limiter calls)).
Proof.
  revert limiter. induction calls as [|[request now] rest IH];
    intros limiter Hm.
  - constructor.
  - rewrite run_cons. cbn [snd]. constructor.
    + rewrite check_result. apply negb_false_iff.
      rewrite Z.geb_leb. apply Z.leb_le. lia.
    + apply IH. now rewrite check_options.
Qed.

Lemma zero_budget_denies_all_witness :
  Forall (fun ok => ok = false)
    (snd (run (fresh (mkOptions 1000 0 None)) scenarioCalls)).
Proof.
  apply (zero_budget_denies_all (fresh (mkOptions 1000 0 None)) scenarioCalls).
  simpl. lia.
Defined.

(** ** Sessions: authentication and onboarding *)

Section SessionFacts.

Import Sessions.

(** X22.  What step 1 of the onboarding stores is what the loader of step 2
    hands to the page on the next request, whatever the session held
    before; the logged-in user, if any, stays the same. *)
Theorem onboarding_step1_reaches_step2 (formData : string -> option string)
  (session : Session) :
  step2Loader (nextSession session (step1Action formData session))
  = Data (mkStep1 (formData "name") (formData "email"))
  /\ userId (nextSession session (step1Action formData session))
     = userId session.
Proof. split; reflexivity. Qed.

(** X23.  Only the loader of step 2 checks that step 1 was done.  On a
    session without step-1 data the loader redirects to step 1, but the
    action still creates a user, from the preferences alone, and logs
    that user in. *)
Theorem onboarding_step2_action_unguarded (createUser : NewUser -> User)
  (formData : string -> option string) (session : Session) :
  onboarding session = None \/ onboarding session = Some None ->
  step2Loader session = Redirect "/onboarding/step-1" None
  /\ step2Action createUser formData session
     = Redirect "/dashboard"
         (Some {| userId :=
                    Some (id (createUser
                                (mkNewUser None (formData "preferences"))));
                  onboarding := None |}).
Proof.
  unfold step2Loader, step2Action. intros [-> | ->]; split; reflexivity.
Qed.

Lemma onboarding_step2_action_unguarded_witness :
  step2Action (fun _ => mkUser "u1" false) (fun _ => None)
    (mkSession None None)
  = Redirect "/dashboard" (Some (mkSession (Some "u1") None)).
Proof.
  apply (proj2 (onboarding_step2_action_unguarded
                  (fun _ => mkUser "u1" false) (fun _ => None)
                  (mkSession None None) (or_introl eq_refl))).
Defined.

(** X24.  Completing step 2 clears the onboarding data and logs the new
    user in: on the next request the loader of step 2 redirects to step 1
    again, and [requireAuth] returns the new user's id (an id that is not
    the empty string). *)
Theorem onboarding_completion (createUser : NewUser -> User)
  (formData : string -> option string) (session : Session) :
  id (createUser (mkNewUser (default None (onboarding session))
                    (formData "preferences"))) <> "" ->
  step2Loader (nextSession session (step2Action createUser formData session))
  = Redirect "/onboarding/step-1" None
  /\ requireAuth
       (nextSession session (step2Action createUser formData session))
     = Data (id (createUser (mkNewUser (default None (onboarding session))
                               (formData "preferences")))).
Proof.
  intros Hid. split; [reflexivity|].
  unfold requireAuth, step2Action, nextSession. cbn [userId].
  apply truthy_nonempty in Hid. now rewrite Hid.
Qed.

Lemma onboarding_completion_witness :
  requireAuth
    (nextSession (mkSession None (Some (Some (mkStep1 (Some "Ann") None))))
       (step2Action (fun _ => mkUser "u1" false) (fun _ => None)
          (mkSession None (Some (Some (mkStep1 (Some "Ann") None))))))
  = Data "u1".
Proof.
  apply (proj2 (onboarding_completion
                  (fun _ => mkUser "u1" false) (fun _ => None)
                  (mkSession None (Some (Some (mkStep1 (Some "Ann") None))))
                  ltac:(discriminate))).
Defined.

(** X25.  The admin loader returns the admin data only to a session whose
    [userId] is not empty and names a stored user with [isAdmin] set; in
    every other case it throws the unauthorized error. *)
Theorem admin_data_requires_admin {A : Type} (db : gmap string User)
  (adminData : A) (session : Session) :
  (exists u user,
      userId session = Some u /\ u <> "" /\ db !! u = Some user
      /\ isAdmin user = true)
  /\ adminLoader db adminData session = inl adminData
  \/ ~ (exists u user,
          userId session = Some u /\ u <> "" /\ db !! u = Some user
          /\ isAdmin user = true)
     /\ adminLoader db adminData session = inr "Admin access required".
Proof.
  unfold adminLoader, getUser.
  destruct (userId session) as [u|] eqn:Eu.
  - destruct (truthy u) eqn:Et.
    + destruct (db !! u) as [user|] eqn:Edb.
      * destruct (isAdmin user) eqn:Ea.
        -- left. split; [|reflexivity].
           exists u, user. repeat split; auto. now apply truthy_nonempty.
        -- right. split; [|reflexivity].
           intros (u' & user' & Hu & _ & Hdb & Hadm). congruence.
      * right. split; [|reflexivity].
        intros (u' & user' & Hu & _ & Hdb & _). congruence.
    + right. split; [|reflexivity].
      intros (u' & user' & Hu & Hne & _). injection Hu as <-.
      apply truthy_nonempty in Hne. congruence.
  - right. split; [|reflexivity].
    intros (u' & user' & Hu & _). discriminate.
Qed.

(** X26.  After a successful login the next request is authenticated as
    that user (an id that is not the empty string), and a failed login
    answers 400 and leaves the session as it was. *)
Theorem login_then_requireAuth (user : User) (session : Session) :
  id user <> "" ->
  requireAuth (nextSession session (login (Some user) session))
  = Data (id user)
  /\ login None session = ErrorData "Invalid credentials" 400
  /\ nextSession session (login None session) = session.
Proof.
  intros Hid. split; [|split; reflexivity].
  unfold requireAuth, login, nextSession. cbn [userId].
  apply truthy_nonempty in Hid. now rewrite Hid.
Qed.

Lemma login_then_requireAuth_witness :
  requireAuth
    (nextSession (mkSession None None)
       (login (Some (mkUser "u1" false)) (mkSession None None)))
  = Data "u1".
Proof.
  apply (proj1 (login_then_requireAuth (mkUser "u1" false)
                  (mkSession None None) ltac:(discriminate))).
Defined.

End SessionFacts.

(** ** Optimistic toggle *)

(** X27.  Submitting the form as rendered flips what the item shows: while
    the submission is in flight the displayed state is the negation of the
    state displayed before, whatever the stored todo says. *)
Theorem toggle_flips_displayed_state (todoId : string)
  (formData : option (string -> option string)) (completed stored : bool) :
  TodoItem.optimisticCompleted
    (Some (TodoItem.renderedForm todoId formData completed)) stored
  = negb (TodoItem.optimisticCompleted formData completed).
Proof.
  unfold TodoItem.optimisticCompleted at 1, TodoItem.renderedForm.
  cbn [String.eqb Ascii.eqb Bool.eqb].
  destruct (TodoItem.optimisticCompleted formData completed); reflexivity.
Qed.
